(** * Longform recognition for deft / adeft

    A shallow embedding of [adeft/recognize.py] and [deft/recognize.py]:
    the search trie keyed on reversed, stemmed longform tokens, the search
    that walks it backwards from a shortform occurrence, and the two
    recognisers built on top of it.

    Python values are modelled as follows.
    - [str] is [string]; a character is a code point below 256.
    - A [dict] whose iteration order matters (the grounding map) is an
      association list in insertion order; [children] of a trie node, whose
      order is never observed, is a [gmap].
    - A [set] is a [gset].
    - An exception is a constructor of [result]. *)

From Stdlib Require Import ZArith Lia Ascii String.
From stdpp Require Import base option list gmap sets strings.

Local Open Scope Z_scope.

(** ** Trie nodes *)

(** [class _TrieNode]: [longform] is [None] except at terminal nodes.  The
    deft revision calls the same slot [grounding] and stores the grounding
    itself in it. *)
#[local] Unset Elimination Schemes.
Inductive _TrieNode : Type :=
  TrieNode { longform : option string; children : gmap string _TrieNode }.
#[local] Set Elimination Schemes.

(** [_TrieNode()] and [_TrieNode(longform)]: a fresh node has no child. *)
Definition new_node (payload : option string) : _TrieNode := TrieNode payload ∅.

(** [current.children[token] = child], seen from the owner of [current]. *)
Definition set_child (current : _TrieNode) (token : string) (child : _TrieNode)
  : _TrieNode :=
  TrieNode (longform current) (<[token := child]> (children current)).

(** The inner loop of [_init_trie],
    [for index, token in enumerate(edges)], started at [index] with [n]
    standing for [len(edges)].  The loop moves a pointer [current] down a
    mutable tree; here each level returns the updated subtree. *)
Fixpoint insert_from (n index : Z) (edges : list string) (payload : string)
    (current : _TrieNode) : _TrieNode :=
  match edges with
  | [] => current
  | token :: rest =>
      match children current !! token with
      | None =>
          let new :=
            if index =? n - 1 then new_node (Some payload) else new_node None in
          set_child current token (insert_from n (index + 1) rest payload new)
      | Some child =>
          set_child current token (insert_from n (index + 1) rest payload child)
      end
  end.

(** One iteration of the outer loop of [_init_trie]. *)
Definition insert_edges (edges : list string) (payload : string)
    (root : _TrieNode) : _TrieNode :=
  insert_from (Z.of_nat (length edges)) 0 edges payload root.

(** The outer loop over [(edges, payload)] pairs, from a given root. *)
Definition insert_all (entries : list (list string * string)) (root : _TrieNode)
  : _TrieNode :=
  foldl (λ r e, insert_edges e.1 e.2 r) root entries.

(** ** Walking the trie *)

(** The node reached from [root] along [path], if every edge exists. *)
Fixpoint node_at (root : _TrieNode) (path : list string) : option _TrieNode :=
  match path with
  | [] => Some root
  | token :: rest => children root !! token ≫= λ child, node_at child rest
  end.

(** The payload of the terminal node at [path]; [None] when the node is
    missing or is not terminal. *)
Definition terminal_value (root : _TrieNode) (path : list string) : option string :=
  node_at root path ≫= longform.

(** What one iteration of the loop of [_search] does. *)
Inductive outcome : Type :=
  | Continue (current : _TrieNode)
  | Break
  | Return (value : string).

(** The body of [for token in tokens] in [_search]. *)
Definition search_body (current : _TrieNode) (token : string) : outcome :=
  match children current !! token with
  | None => Break
  | Some child =>
      match longform child with
      | None => Continue child
      | Some l => Return l
      end
  end.

(** The loop of [_search]: leaving it by [break] or by running out of
    tokens falls off the end of the function, which returns [None]. *)
Fixpoint search_loop (current : _TrieNode) (tokens : list string) : option string :=
  match tokens with
  | [] => None
  | token :: rest =>
      match search_body current token with
      | Continue child => search_loop child rest
      | Break => None
      | Return l => Some l
      end
  end.

(** The search as the specification words it: walk from the root one token
    at a time; stop without a match where the current node has no child
    for the token; otherwise move to the child and return its value at once
    if it is terminal; no match when the tokens run out. *)
Inductive spec_search : _TrieNode → list string → option string → Prop :=
  | spec_exhausted current :
      spec_search current [] None
  | spec_no_child current token rest :
      children current !! token = None →
      spec_search current (token :: rest) None
  | spec_terminal current token rest child value :
      children current !! token = Some child →
      longform child = Some value →
      spec_search current (token :: rest) (Some value)
  | spec_descend current token rest child r :
      children current !! token = Some child →
      longform child = None →
      spec_search child rest r →
      spec_search current (token :: rest) r.

(** The same insertion, with the test [index == len(edges) - 1] read as
    "no edge is left". *)
Fixpoint insert_path (edges : list string) (payload : string)
    (current : _TrieNode) : _TrieNode :=
  match edges with
  | [] => current
  | token :: rest =>
      match children current !! token with
      | None =>
          let new :=
            match rest with [] => new_node (Some payload) | _ => new_node None end in
          set_child current token (insert_path rest payload new)
      | Some child => set_child current token (insert_path rest payload child)
      end
  end.

(** The payload slot of the node at [path]: [None] when there is no such
    node, [Some None] for a node that is not terminal. *)
Definition slot (root : _TrieNode) (path : list string) : option (option string) :=
  longform <$> node_at root path.

(** The first entry, in iteration order, whose edges pass through [path]:
    the one whose insertion creates the node at [path]. *)
Definition creator (path : list string) (entries : list (list string * string))
  : option (list string * string) :=
  head (filter (λ e, path `prefix_of` e.1) entries).

(** The slot a creating entry leaves at [path]. *)
Definition created_slot (path : list string) (e : list string * string)
  : option string :=
  if decide (e.1 = path) then Some e.2 else None.

(** [k] is not empty, and the edges [key] begin with [k] and go on. *)
Definition strict_prefix (k key : list string) : Prop :=
  k ≠ [] ∧ k `prefix_of` key ∧ k ≠ key.

(** Nothing gets in the way of the entry with the edges [key], inserted
    after the entries with the edges [before] and ahead of those with the
    edges [after]: its edges are not empty, no other entry has edges that
    are a strict prefix of them, and no earlier entry has edges that pass
    through their end. *)
Definition unobstructed (before : list (list string)) (key : list string)
    (after : list (list string)) : Prop :=
  key ≠ []
  ∧ Forall (λ k, ¬ strict_prefix k key ∧ ¬ key `prefix_of` k) before
  ∧ Forall (λ k, ¬ strict_prefix k key) after.

#[global] Instance strict_prefix_dec k key : Decision (strict_prefix k key).
Proof. unfold strict_prefix. apply _. Defined.

#[global] Instance unobstructed_dec before key after :
  Decision (unobstructed before key after).
Proof. unfold unobstructed. apply _. Defined.

(** ** The grounding map *)

(** [grounding_map.items()]: the pairs of a [dict], in insertion order.
    The keys of a [dict] are distinct; no statement below needs it. *)
Abbreviation dict := (list (string * string)).

(** Python exceptions the modelled code can raise. *)
Inductive exn : Type := KeyError | IndexError.

Inductive result (A : Type) : Type :=
  | Ok (a : A)
  | Raise (e : exn).
Arguments Ok {A} a.
Arguments Raise {A} e.

(** [d[key]] *)
Definition getitem (d : dict) (key : string) : result string :=
  match list_find (λ kv, kv.1 = key) d with
  | Some (_, kv) => Ok kv.2
  | None => Raise KeyError
  end.

(** [d.values()] *)
Definition values (d : dict) : list string := snd <$> d.

(** ** Collaborators

    [adeft.nlp], [adeft.util], [deft.extraction] and nltk's stemmer are
    imported by the two modules; they are taken as parameters. *)

Class NLP := {
  (** [tokenize(text)]: the tokens of a text, each with an annotation that
      [untokenize] reads back *)
  tokenize : string → list (string * string);
  untokenize : list (string * string) → string;
  (** [_stemmer.stem(token)] *)
  stem : string → string;
}.

Class Util := {
  (** [get_candidate_fragments(text, shortform, window)] *)
  get_candidate_fragments : string → string → Z → list string;
  (** [get_candidate(fragment, exclude)] *)
  get_candidate : string → gset string → list string;
}.

(** ** Characters and strings

    The pieces of Python's [str], [string] and [re] that
    [strip_defining_patterns] uses, on code points below 256. *)

Definition code (c : ascii) : Z := Z.of_N (Ascii.N_of_ascii c).

Definition between (lo hi n : Z) : bool := (lo <=? n) && (n <=? hi).

(** [c.isspace()], which is also what [\s] matches and what [str.split()]
    and [str.strip()] take for white space. *)
Definition isspace (c : ascii) : bool :=
  let n := code c in
  between 9 13 n || between 28 32 n || (n =? 133) || (n =? 160).

(** What [\w] matches: [c.isalnum()] or an underscore. *)
Definition isword (c : ascii) : bool :=
  let n := code c in
  between 48 57 n || between 65 90 n || between 97 122 n || (n =? 95)
  || (n =? 170) || between 178 179 n || (n =? 181) || between 185 186 n
  || between 188 190 n || between 192 214 n || between 216 246 n
  || between 248 255 n.

(** [string.punctuation] *)
Definition punctuation : string :=
  string_of_list_ascii
    (Ascii.ascii_of_nat <$>
       (seq 33 15 ++ seq 58 7 ++ seq 91 6 ++ seq 123 4)).

(** [needle in haystack] for two strings. *)
Fixpoint contains (haystack needle : string) : bool :=
  String.prefix needle haystack
  || match haystack with
     | EmptyString => false
     | String _ rest => contains rest needle
     end.

(** [re.match(r'\w+', token)] finds a match. *)
Definition re_match_word (token : string) : bool :=
  match token with
  | EmptyString => false
  | String c _ => isword c
  end.

Fixpoint split_from (current text : string) : list string :=
  match text with
  | EmptyString => if decide (current = EmptyString) then [] else [current]
  | String c rest =>
      if isspace c
      then if decide (current = EmptyString) then split_from EmptyString rest
           else current :: split_from EmptyString rest
      else split_from (current +:+ String c EmptyString) rest
  end.

(** [text.split()] *)
Definition split (text : string) : list string := split_from EmptyString text.

(** [s] holds no white space. *)
Fixpoint spaceless (s : string) : bool :=
  match s with
  | EmptyString => true
  | String c rest => negb (isspace c) && spaceless rest
  end.

(** [sep.join(words)] *)
Definition join (sep : string) (words : list string) : string :=
  String.concat sep words.

Fixpoint lstrip (text : string) : string :=
  match text with
  | EmptyString => EmptyString
  | String c rest => if isspace c then lstrip rest else text
  end.

Fixpoint rstrip (text : string) : string :=
  match text with
  | EmptyString => EmptyString
  | String c rest =>
      let rest' := rstrip rest in
      if isspace c && bool_decide (rest' = EmptyString) then EmptyString
      else String c rest'
  end.

(** [text.strip()] *)
Definition strip (text : string) : string := rstrip (lstrip text).

Fixpoint replace_from (old new : string) (skip : nat) (text : string) : string :=
  match text with
  | EmptyString => EmptyString
  | String c rest =>
      match skip with
      | S skip' => replace_from old new skip' rest
      | O =>
          if String.prefix old text
          then new +:+ replace_from old new (Nat.pred (String.length old)) rest
          else String c (replace_from old new O rest)
      end
  end.

Fixpoint intersperse_chars (new text : string) : string :=
  match text with
  | EmptyString => EmptyString
  | String c rest => String c (new +:+ intersperse_chars new rest)
  end.

(** [text.replace(old, new)]: occurrences are taken from the left and do
    not overlap; an empty [old] matches before every character and at the
    end. *)
Definition replace (text old new : string) : string :=
  if decide (old = EmptyString) then new +:+ intersperse_chars new text
  else replace_from old new O text.

(** [prefix] removed from the front of [text], if it is there. *)
Fixpoint drop_prefix (prefix text : string) : option string :=
  match prefix, text with
  | EmptyString, _ => Some text
  | String a prefix', String b text' =>
      if decide (a = b) then drop_prefix prefix' text' else None
  | String _ _, EmptyString => None
  end.

(** A match of [r'\(\s*%s\s*\)' % shortform] at the start of [text]; the
    result is what follows the match.  The shortform is read as a literal,
    which is how [re] reads it when it is made of letters and digits. *)
Definition match_pattern (shortform text : string) : option string :=
  match text with
  | String "(" rest =>
      match drop_prefix shortform (lstrip rest) with
      | Some rest' =>
          match lstrip rest' with
          | String ")" after => Some after
          | _ => None
          end
      | None => None
      end
  | _ => None
  end.

Fixpoint sub_from (shortform repl : string) (skip : nat) (text : string) : string :=
  match text with
  | EmptyString => EmptyString
  | String c rest =>
      match skip with
      | S skip' => sub_from shortform repl skip' rest
      | O =>
          match match_pattern shortform text with
          | Some after =>
              repl +:+ sub_from shortform repl
                         (String.length rest - String.length after)%nat rest
          | None => String c (sub_from shortform repl O rest)
          end
      end
  end.

(** [re.sub(r'\(\s*%s\s*\)' % shortform, repl, text)] *)
Definition re_sub (shortform repl text : string) : string :=
  sub_from shortform repl O text.

(** The pattern [r'\(\s*%s\s*\)' % shortform] matches somewhere in [text]. *)
Fixpoint occurs (shortform text : string) : bool :=
  match match_pattern shortform text with
  | Some _ => true
  | None =>
      match text with
      | EmptyString => false
      | String _ rest => occurs shortform rest
      end
  end.

(** The shortforms for which [match_pattern] is what [re] does. *)
Definition plain (shortform : string) : Prop :=
  Forall (λ c, isword c = true) (list_ascii_of_string shortform).

(** [l[j]] for a list, with Python's negative indices. *)
Definition getitem_list {A} (l : list A) (j : Z) : result A :=
  let k := if j <? 0 then j + Z.of_nat (length l) else j in
  if k <? 0 then Raise IndexError
  else match l !! Z.to_nat k with
       | Some x => Ok x
       | None => Raise IndexError
       end.

(** [l[:stop]] *)
Definition slice_to {A} (l : list A) (stop : Z) : list A :=
  let k := if stop <? 0 then Z.max 0 (stop + Z.of_nat (length l)) else stop in
  take (Z.to_nat k) l.

(** ** Exceptions as a monad, and [for] loops that may raise *)

#[global] Instance result_ret : MRet result := λ A, Ok.
#[global] Instance result_bind : MBind result :=
  λ A B f m, match m with Ok a => f a | Raise e => Raise e end.

(** [for item in items: state = body(state, item)] *)
Fixpoint for_each {A S} (items : list A) (body : S → A → result S) (state : S)
  : result S :=
  match items with
  | [] => Ok state
  | item :: rest => state' ← body state item; for_each rest body state'
  end.

(** * adeft/recognize.py *)

Module Adeft.

(** The attributes of an [AdeftRecognizer]. *)
Record AdeftRecognizer := {
  grounding_map : dict;
  _trie : _TrieNode;
  shortform : string;
  window : Z;
  exclude : gset string;
}.

Section recognizer.
Context `{!NLP, !Util}.

(** [tuple(_stemmer.stem(token) for token, _ in tokenize(longform))[::-1]] *)
Definition edges (longform : string) : list string :=
  reverse (stem <$> (fst <$> tokenize longform)).

(** [AdeftRecognizer._init_trie]: terminal nodes carry the longform. *)
Definition _init_trie (grounding_map : dict) : _TrieNode :=
  insert_all ((λ item, (edges item.1, item.1)) <$> grounding_map) (new_node None).

(** [AdeftRecognizer.__init__]; [exclude=None] is the empty set. *)
Definition __init__ (shortform : string) (grounding_map : dict) (window : Z)
    (exclude : gset string) : AdeftRecognizer :=
  {| grounding_map := grounding_map;
     _trie := _init_trie grounding_map;
     shortform := shortform;
     window := window;
     exclude := exclude |}.

(** [AdeftRecognizer._search] *)
Definition _search (self : AdeftRecognizer) (tokens : list string) : option string :=
  search_loop (_trie self) tokens.

(** [AdeftRecognizer._post_process] *)
Definition _post_process (self : AdeftRecognizer) (longform : string)
  : result string :=
  getitem (grounding_map self) longform.

(** The body of the loop of [BaseRecognizer.recognize]. *)
Definition recognize_body (self : AdeftRecognizer) (groundings : gset string)
    (fragment : string) : result (gset string) :=
  if decide (fragment = EmptyString) then Ok groundings
  else
    let tokens := get_candidate fragment (exclude self) in
    match _search self (stem <$> reverse tokens) with
    | None => Ok groundings
    | Some longform =>
        if decide (longform = EmptyString) then Ok groundings
        else
          grounding ← _post_process self longform;
          Ok ({[ grounding ]} ∪ groundings)
    end.

(** [BaseRecognizer.recognize] *)
Definition recognize (self : AdeftRecognizer) (text : string)
  : result (gset string) :=
  let fragments := get_candidate_fragments text (shortform self) (window self) in
  for_each fragments (recognize_body self) ∅.

(** The [while] loop of [strip_defining_patterns], for at most [fuel]
    tests of its condition; the result is the final [j]. *)
Fixpoint while_loop (fuel : nat) (tokens : list (string * string))
    (num_words i j : Z) : option (result Z) :=
  match fuel with
  | O => None
  | S fuel' =>
      if i <? num_words then
        match getitem_list tokens j with
        | Raise e => Some (Raise e)
        | Ok token =>
            let i := if re_match_word token.1 then i + 1 else i in
            let j := j - 1 in
            if 100 <? i then Some (Ok j)
            else while_loop fuel' tokens num_words i j
        end
      else Some (Ok j)
  end.

(** The backward scan: [i = 0], [j = len(tokens) - 1] and the loop.  The
    fuel always suffices ([while_loop_fuel] below). *)
Definition scan (tokens : list (string * string)) (num_words : Z) : result Z :=
  default (Raise IndexError)
    (while_loop (2 * length tokens + 2) tokens num_words 0
       (Z.of_nat (length tokens) - 1)).

(** The tokens searched for one fragment in [strip_defining_patterns]. *)
Definition fragment_key (tokens : list (string * string)) : list string :=
  stem <$> filter (λ token, contains punctuation token = false)
                  (fst <$> reverse tokens).

(** The body of the loop over fragments in [strip_defining_patterns]. *)
Definition strip_body (self : AdeftRecognizer) (text fragment : string)
  : result string :=
  let tokens := tokenize fragment in
  match _search self (fragment_key tokens) with
  | None => Ok text
  | Some longform =>
      let num_words := Z.of_nat (length (split longform)) in
      j ← scan tokens num_words;
      Ok (replace text (strip fragment) (untokenize (slice_to tokens (j + 1))))
  end.

(** [BaseRecognizer.strip_defining_patterns]; the fragments are taken
    with the default window of 100 characters. *)
Definition strip_defining_patterns (self : AdeftRecognizer) (text : string)
  : result string :=
  let fragments := get_candidate_fragments text (shortform self) 100 in
  text ← for_each fragments (strip_body self) text;
  let stripped_text :=
    re_sub (shortform self) (" " +:+ shortform self +:+ " ") text in
  Ok (join " " (split stripped_text)).
End recognizer.

End Adeft.

(** * deft/recognize.py *)

Module Deft.

(** [deft.extraction.Processor(shortform, exclude).extract(text)]: the
    maximal longform candidates of a text, each a sequence of tokens. *)
Class Processor := {
  extract : string → option (gset string) → string → list (list string);
}.

(** The slot [grounding] of deft's [_TrieNode]. *)
Abbreviation grounding := longform.

(** The attributes of a [Recognizer]; [exclude] stands for [_processor],
    which is [Processor(shortform, exclude)]. *)
Record Recognizer := {
  shortform : string;
  grounding_map : list (list string * string);
  _trie : _TrieNode;
  exclude : option (gset string);
}.

Section recognizer.
Context `{!NLP, !Processor}.

(** [Recognizer._init_trie]: the keys of the map are the edges, and the
    terminal nodes carry the grounding. *)
Definition _init_trie (grounding_map : list (list string * string)) : _TrieNode :=
  insert_all grounding_map (new_node None).

(** [Recognizer.__init__] *)
Definition __init__ (shortform : string)
    (grounding_map : list (list string * string))
    (exclude : option (gset string)) : Recognizer :=
  {| shortform := shortform;
     grounding_map := grounding_map;
     _trie := _init_trie grounding_map;
     exclude := exclude |}.

(** [Recognizer._search]: the [else] of the [for] returns [None] when
    the tokens run out, and a [break] falls off the end of the function. *)
Fixpoint _search_loop (current : _TrieNode) (tokens : list string)
  : option string :=
  match tokens with
  | [] => None
  | token :: rest =>
      match children current !! token with
      | None => None
      | Some child =>
          match grounding child with
          | Some g => Some g
          | None => _search_loop child rest
          end
      end
  end.

Definition _search (self : Recognizer) (tokens : list string) : option string :=
  _search_loop (_trie self) tokens.

(** The set [groundings] of [Recognizer.recognize]; an element is [None]
    for a candidate that [_search] does not find. *)
Definition groundings (self : Recognizer) (text : string) : gset (option string) :=
  let candidates := extract (shortform self) (exclude self) text in
  list_to_set ((λ candidate, _search self (stem <$> reverse candidate))
                 <$> candidates).

(** Whether [recognize] calls [logger.info]. *)
Definition logs (self : Recognizer) (text : string) : bool :=
  bool_decide (1 < size (groundings self text))%nat.

(** [Recognizer.recognize] may return [r]: [groundings.pop()] takes any
    element of a set that is not empty. *)
Definition recognize (self : Recognizer) (text : string) (r : option string)
  : Prop :=
  if decide (groundings self text = ∅) then r = None
  else r ∈ groundings self text.
End recognizer.

End Deft.

(** * Stand-ins for the collaborators

    Concrete collaborators on which the recognisers can be run. *)

Module Plain.

(** The token under construction in [tokenize]: its text and the white
    space seen after it. *)
Definition extend (pending : option (string * string)) (c : ascii)
  : list (string * string) * option (string * string) :=
  let c' := String c EmptyString in
  match pending with
  | None => if isspace c then ([], None) else ([], Some (c', EmptyString))
  | Some (token, space) =>
      if isspace c then ([], Some (token, space +:+ c'))
      else if isword c && re_match_word token && bool_decide (space = EmptyString)
      then ([], Some (token +:+ c', EmptyString))
      else ([(token, space)], Some (c', EmptyString))
  end.

Fixpoint tokenize_from (pending : option (string * string)) (text : string)
  : list (string * string) :=
  match text with
  | EmptyString => option_list pending
  | String c rest =>
      let '(done, pending') := extend pending c in
      done ++ tokenize_from pending' rest
  end.

(** Modelled from the spec: [adeft.nlp.tokenize], "splits text into
    (token, whitespace) pairs".  A token is a run of word characters or a
    single character that is neither a word character nor white space; it
    comes with the white space that follows it. *)
Definition tokenize (text : string) : list (string * string) :=
  tokenize_from None text.

(** Modelled from the spec: [adeft.nlp.untokenize], which puts the tokens
    "back into text form". *)
Definition untokenize (tokens : list (string * string)) : string :=
  String.concat EmptyString ((λ t, t.1 +:+ t.2) <$> tokens).

(** nltk's [EnglishStemmer.stem] returns a lower-case word of one or two
    letters, and a symbol, as it is; the texts below use no other token,
    and the identity stands in for it. *)
Definition stem (token : string) : string := token.

#[export] Instance nlp : NLP := Build_NLP tokenize untokenize stem.

(** The last [n] characters of [text]. *)
Definition last_chars (n : Z) (text : string) : string :=
  string_of_list_ascii
    (drop (String.length text - Z.to_nat n) (list_ascii_of_string text)).

Fixpoint fragments_from (shortform : string) (window : Z) (skip : nat)
    (since text : string) : list string :=
  match text with
  | EmptyString => []
  | String c rest =>
      match skip with
      | S skip' => fragments_from shortform window skip' EmptyString rest
      | O =>
          match match_pattern shortform text with
          | Some after =>
              last_chars window since
              :: fragments_from shortform window
                   (String.length rest - String.length after)%nat EmptyString rest
          | None =>
              fragments_from shortform window O
                (since +:+ String c EmptyString) rest
          end
      end
  end.

(** Modelled from the spec: [adeft.util.get_candidate_fragments], "the
    text fragments immediately preceding each occurrence of (<shortform>),
    bounded by [...] the window length".  A fragment does not reach back
    over the previous occurrence; sentences are not split, the texts below
    being single sentences. *)
Definition get_candidate_fragments (text shortform : string) (window : Z)
  : list string :=
  fragments_from shortform window O EmptyString text.

Fixpoint after_last_excluded (exclude : gset string) (tokens : list string)
  : list string :=
  match tokens with
  | [] => []
  | token :: rest =>
      let tail := after_last_excluded exclude rest in
      if decide (Exists (λ t, t ∈ exclude) (token :: rest)) then tail
      else token :: tail
  end.

(** Modelled from the spec: [adeft.util.get_candidate], "the ordered token
    sequence to search (stopping at excluded tokens)": the tokens of the
    fragment that follow its last excluded token. *)
Definition get_candidate (fragment : string) (exclude : gset string)
  : list string :=
  after_last_excluded exclude (fst <$> tokenize fragment).

#[export] Instance util : Util :=
  Build_Util get_candidate_fragments get_candidate.

(** Modelled from the spec: [deft.extraction.Processor.extract], the
    candidate of every fragment of the text, with deft's window of 100
    characters. *)
Definition extract (shortform : string) (exclude : option (gset string))
    (text : string) : list (list string) :=
  (λ fragment, get_candidate fragment (default ∅ exclude))
    <$> get_candidate_fragments text shortform 100.

#[export] Instance processor : Deft.Processor := Deft.Build_Processor extract.

End Plain.

(** * Inputs of the concrete runs *)

(** The one-character string of the multiplication sign, U+00D7: neither
    white space, nor a word character, nor in [string.punctuation]. *)
Definition times_sign : string := String (Ascii.ascii_of_nat 215) EmptyString.


(** * Notions used by the further properties *)

(** The pairs [AdeftRecognizer._init_trie] inserts for a grounding map: the
    edges of each longform, with the longform as payload. *)
Definition adeft_entries `{!NLP} (grounding_map : dict)
  : list (list string * string) :=
  (λ item, (Adeft.edges item.1, item.1)) <$> grounding_map.

(** No entry has edges that are a prefix of the edges of another entry;
    in particular no two entries have the same edges. *)
Definition antichain (entries : list (list string * string)) : Prop :=
  Forall (λ e, Forall (λ e', e.1 `prefix_of` e'.1 → e = e') entries) entries.

#[global] Instance antichain_dec entries : Decision (antichain entries).
Proof. unfold antichain. apply _. Defined.

(** * Properties *)

(** ** Facts about insertion *)

Lemma insert_from_path n index edges payload current :
  index + Z.of_nat (length edges) = n →
  insert_from n index edges payload current = insert_path edges payload current.
Proof.
  revert index current.
  induction edges as [|token rest IH]; intros index current Hn; [done|].
  cbn [insert_from insert_path length] in *.
  assert (Hi : (index =? n - 1) = match rest with [] => true | _ => false end).
  { destruct rest; cbn [length] in *; lia. }
  rewrite Hi.
  destruct (children current !! token);
    rewrite IH by lia; by destruct rest.
Qed.

Lemma insert_edges_path edges payload root :
  insert_edges edges payload root = insert_path edges payload root.
Proof. apply insert_from_path. lia. Qed.

Lemma longform_insert_path edges payload current :
  longform (insert_path edges payload current) = longform current.
Proof. destruct edges; cbn; [done|]. by destruct (children current !! _). Qed.

Lemma node_at_new_node payload path :
  path ≠ [] → node_at (new_node payload) path = None.
Proof. by destruct path. Qed.

Lemma cons_prefix_iff (t : string) (p l : list string) :
  (t :: p) `prefix_of` (t :: l) ↔ p `prefix_of` l.
Proof. split; [apply prefix_cons_inv_2|apply prefix_cons]. Qed.

(** A node that exists before an insertion keeps its payload; a node that
    does not exists afterwards exactly when the inserted edges pass through
    it, and is terminal exactly when they end there. *)
Lemma node_at_insert_path edges payload root path :
  longform <$> node_at (insert_path edges payload root) path =
  match node_at root path with
  | Some n => Some (longform n)
  | None =>
      if decide (path `prefix_of` edges)
      then Some (if decide (edges = path) then Some payload else None)
      else None
  end.
Proof.
  revert root path.
  induction edges as [|token rest IH]; intros root path.
  - cbn. destruct (node_at root path) eqn:E; [done|].
    destruct path; [done|].
    rewrite decide_False; [done|]. by intros ?%prefix_nil_inv.
  - destruct path as [|t path].
    { cbn [node_at fmap option_fmap option_map]. by rewrite longform_insert_path. }
    cbn [insert_path node_at].
    destruct (decide (t = token)) as [->|Hne].
    + destruct (children root !! token) as [child|] eqn:Hc;
        cbn [set_child children]; rewrite lookup_insert_eq; cbn [mbind option_bind];
        rewrite IH.
      * destruct (node_at child path); [done|].
        repeat case_decide; simplify_eq; try done;
          exfalso; rewrite cons_prefix_iff in *; tauto.
      * destruct path as [|t' path'].
        -- cbn [node_at].
           destruct rest; cbn [new_node longform];
             repeat case_decide; simplify_eq; try done;
             exfalso; auto using prefix_cons, prefix_nil.
        -- assert (node_at (match rest with
                            | [] => new_node (Some payload)
                            | _ => new_node None end) (t' :: path') = None) as ->.
           { destruct rest; by apply node_at_new_node. }
           repeat case_decide; simplify_eq; try done;
             exfalso; rewrite cons_prefix_iff in *; tauto.
    + assert (children (insert_path (token :: rest) payload root) !! t
              = children root !! t) as Hsame.
      { cbn [insert_path]. destruct (children root !! token);
          cbn [set_child children]; by rewrite lookup_insert_ne. }
      cbn [insert_path] in Hsame. rewrite Hsame.
      destruct (children root !! t ≫= λ child, node_at child path); [done|].
      rewrite decide_False; [done|]. by intros ?%prefix_cons_inv_1.
Qed.

Lemma slot_insert_edges edges payload root path :
  slot (insert_edges edges payload root) path =
  match slot root path with
  | Some x => Some x
  | None => created_slot path <$> creator path [(edges, payload)]
  end.
Proof.
  unfold slot. rewrite insert_edges_path, node_at_insert_path.
  destruct (node_at root path); [done|].
  unfold creator, created_slot. cbn [fmap option_fmap option_map].
  rewrite filter_cons, filter_nil. cbn [fst snd].
  by destruct (decide (path `prefix_of` edges)).
Qed.

Lemma insert_all_cons e entries root :
  insert_all (e :: entries) root = insert_all entries (insert_edges e.1 e.2 root).
Proof. done. Qed.

Lemma slot_insert_all entries root path :
  slot (insert_all entries root) path =
  match slot root path with
  | Some x => Some x
  | None => created_slot path <$> creator path entries
  end.
Proof.
  revert root. induction entries as [|[edges payload] entries IH]; intros root.
  - cbn. by destruct (slot root path).
  - rewrite insert_all_cons, IH, slot_insert_edges.
    cbn [fst snd]. destruct (slot root path); [done|].
    unfold creator. rewrite !filter_cons, filter_nil. cbn [fst].
    by destruct (decide (path `prefix_of` edges)).
Qed.

Lemma terminal_value_slot root path :
  terminal_value root path = slot root path ≫= id.
Proof. unfold terminal_value, slot. by destruct (node_at root path). Qed.

Lemma creator_Some path entries e :
  creator path entries = Some e ↔
  ∃ before after, entries = before ++ e :: after
    ∧ path `prefix_of` e.1
    ∧ Forall (λ e', ¬ path `prefix_of` e'.1) before.
Proof.
  unfold creator. induction entries as [|e' entries IH].
  - split; [done|]. intros (before & after & H & _). by destruct before.
  - rewrite filter_cons. destruct (decide (path `prefix_of` e'.1)) as [Hp|Hp].
    + cbn [head]. split.
      * intros [= ->]. exists [], entries. by repeat split.
      * intros (before & after & H & He & Hb).
        destruct before as [|b before]; simplify_eq/=; [done|].
        by apply Forall_cons_1 in Hb as [? _].
    + rewrite IH. split.
      * intros (before & after & -> & He & Hb).
        exists (e' :: before), after. repeat split; [done|by constructor].
      * intros (before & after & H & He & Hb).
        destruct before as [|b before]; simplify_eq/=; [done|].
        apply Forall_cons_1 in Hb as [_ Hb]. eauto.
Qed.

(** ** Facts about the search loop *)

Lemma terminal_value_cons root token path :
  terminal_value root (token :: path) =
  children root !! token ≫= λ child, terminal_value child path.
Proof.
  unfold terminal_value. cbn [node_at]. by destruct (children root !! token).
Qed.

(** The loop returns the payload of the first terminal node on the way
    down. *)
Lemma search_loop_first_terminal root path rest v :
  path ≠ [] →
  terminal_value root path = Some v →
  (∀ q, q ≠ [] → q `prefix_of` path → q ≠ path → terminal_value root q = None) →
  search_loop root (path ++ rest) = Some v.
Proof.
  revert root. induction path as [|token path IH]; intros root Hne Hv Hq; [done|].
  rewrite terminal_value_cons in Hv.
  cbn [app search_loop]. unfold search_body.
  destruct (children root !! token) as [child|] eqn:Hc; [|done].
  cbn [mbind option_bind] in Hv.
  destruct path as [|token' path'].
  - cbn in Hv. by rewrite Hv.
  - assert (longform child = None) as ->.
    { specialize (Hq [token]). rewrite terminal_value_cons, Hc in Hq.
      apply Hq; [done| |done]. apply prefix_cons, prefix_nil. }
    apply IH; [done|done|]. intros q Hq1 Hq2 Hq3.
    specialize (Hq (token :: q)). rewrite terminal_value_cons, Hc in Hq.
    apply Hq; [done|by apply prefix_cons|congruence].
Qed.

(** Whatever the loop returns is the payload of a terminal node below the
    root, on the path spelled by the tokens, with no terminal node above. *)
Lemma search_loop_Some root tokens v :
  search_loop root tokens = Some v →
  ∃ path, path ≠ [] ∧ path `prefix_of` tokens ∧ terminal_value root path = Some v
    ∧ ∀ q, q ≠ [] → q `prefix_of` path → q ≠ path → terminal_value root q = None.
Proof.
  revert root. induction tokens as [|token rest IH]; intros root; [done|].
  cbn [search_loop]. unfold search_body.
  destruct (children root !! token) as [child|] eqn:Hc; [|done].
  destruct (longform child) as [l|] eqn:Hl.
  - intros [= ->]. exists [token]. split_and!; [done|apply prefix_cons, prefix_nil| |].
    + by rewrite terminal_value_cons, Hc.
    + intros [|t q] ? Hp ?; [done|].
      destruct Hp as [k Hk]. destruct q; simplify_eq/=.
  - intros (path & Hne & Hp & Hv & Hq)%IH.
    exists (token :: path). split_and!; [done|by apply prefix_cons| |].
    + by rewrite terminal_value_cons, Hc.
    + intros [|t q] ? Hp' ?; [done|].
      assert (t = token) as -> by by apply prefix_cons_inv_1 in Hp'.
      rewrite terminal_value_cons, Hc. cbn [mbind option_bind].
      destruct q as [|t' q'].
      * done.
      * apply Hq; [done|by apply prefix_cons_inv_2 in Hp'|congruence].
Qed.

(** ** The search loop against its specification *)

Lemma search_loop_spec current tokens r :
  search_loop current tokens = r ↔ spec_search current tokens r.
Proof.
  split.
  - intros <-. revert current.
    induction tokens as [|token rest IH]; intros current; [constructor|].
    cbn [search_loop]. unfold search_body.
    destruct (children current !! token) as [child|] eqn:Hc;
      [|by constructor].
    destruct (longform child) as [l|] eqn:Hl.
    + by eapply spec_terminal.
    + by eapply spec_descend.
  - induction 1 as [|cur token rest Hc|cur token rest child v Hc Hl
                    |cur token rest child r Hc Hl _ IH];
      cbn [search_loop]; unfold search_body; [done|by rewrite Hc|..];
      by rewrite Hc, Hl.
Qed.

Lemma deft_search_loop current tokens :
  Deft._search_loop current tokens = search_loop current tokens.
Proof.
  revert current. induction tokens as [|token rest IH]; intros current; [done|].
  cbn [Deft._search_loop search_loop]. unfold search_body.
  destruct (children current !! token) as [child|]; [|done].
  by destruct (longform child).
Qed.

(** C3.  In both revisions [_search] is the walk of the specification: it
    consumes the tokens one at a time from the root, returns no match at a
    token for which the current node has no child, returns the value of
    the first terminal child it moves to, without looking at the tokens
    left, and returns no match when the tokens run out. *)
Theorem search_is_spec_search
    (self : Adeft.AdeftRecognizer) (self' : Deft.Recognizer)
    (tokens : list string) (r : option string) :
  (Adeft._search self tokens = r ↔ spec_search (Adeft._trie self) tokens r)
  ∧ (Deft._search self' tokens = r ↔ spec_search (Deft._trie self') tokens r).
Proof.
  split.
  - apply search_loop_spec.
  - unfold Deft._search. rewrite deft_search_loop. apply search_loop_spec.
Qed.

(** ** The built trie *)

Lemma slot_new_node path :
  path ≠ [] → slot (new_node None) path = None.
Proof. intros. unfold slot. by rewrite node_at_new_node. Qed.

(** The terminal nodes of a trie built from scratch: the node at [path] is
    terminal with payload [v] exactly when the entry that created it has
    the edges [path] and the payload [v]. *)
Lemma terminal_value_built entries path v :
  terminal_value (insert_all entries (new_node None)) path = Some v ↔
  path ≠ [] ∧ ∃ e, creator path entries = Some e ∧ e.1 = path ∧ e.2 = v.
Proof.
  rewrite terminal_value_slot, slot_insert_all.
  destruct path as [|t path].
  { cbn. split; [done|]. by intros [? _]. }
  rewrite slot_new_node by done.
  destruct (creator (t :: path) entries) as [e|]; cbn.
  - unfold created_slot. case_decide; split.
    + intros [= <-]. eauto.
    + by intros (_ & e' & [= <-] & _ & <-).
    + done.
    + intros (_ & e' & [= <-] & ? & _). done.
  - split; [done|]. by intros (_ & e' & ? & _).
Qed.

Lemma creator_elem_of path entries e :
  creator path entries = Some e → e ∈ entries.
Proof.
  intros (before & after & -> & _)%creator_Some. set_solver.
Qed.

Lemma root_not_terminal entries :
  longform (insert_all entries (new_node None)) = None.
Proof.
  pose proof (slot_insert_all entries (new_node None) []) as H.
  unfold slot in H. cbn in H. by injection H.
Qed.

(** An entry is found again when no other entry gets in its way: no entry
    whose edges are a strict prefix of its own, and no earlier entry whose
    edges pass through the end of its own. *)
Lemma search_loop_built before key v after rest :
  key ≠ [] →
  Forall (λ e, ¬ strict_prefix e.1 key ∧ ¬ key `prefix_of` e.1) before →
  Forall (λ e, ¬ strict_prefix e.1 key) after →
  search_loop (insert_all (before ++ (key, v) :: after) (new_node None))
    (key ++ rest) = Some v.
Proof.
  intros Hne Hb Ha. apply search_loop_first_terminal; [done| |].
  - apply terminal_value_built. split; [done|].
    exists (key, v). split; [|done].
    apply creator_Some. exists before, after. split_and!; [done|done|].
    eapply Forall_impl; [exact Hb|]. by intros e [_ ?].
  - intros q Hq Hqk Hneq.
    destruct (terminal_value _ q) as [v'|] eqn:Hv; [exfalso|done].
    apply terminal_value_built in Hv as (_ & e & Hc & He & _).
    apply creator_elem_of in Hc.
    assert (strict_prefix e.1 key) as Hs by (by rewrite He).
    apply elem_of_app in Hc as [Hc|Hc].
    + rewrite Forall_forall in Hb. by destruct (Hb e Hc).
    + apply elem_of_cons in Hc as [->|Hc]; [by destruct Hs as (_ & _ & ?)|].
      rewrite Forall_forall in Ha. by apply (Ha e Hc).
Qed.

(** Whatever is found in a built trie is the payload of an entry, found at
    the end of that entry's edges, which are not empty. *)
Lemma search_loop_built_Some entries tokens v :
  search_loop (insert_all entries (new_node None)) tokens = Some v →
  ∃ e, e ∈ entries ∧ e.2 = v ∧ e.1 ≠ [] ∧ e.1 `prefix_of` tokens.
Proof.
  intros (path & Hne & Hp & Hv & _)%search_loop_Some.
  apply terminal_value_built in Hv as (_ & e & Hc & <- & <-).
  exists e. split_and!; [by eapply creator_elem_of|done..].
Qed.

Lemma getitem_elem_of (d : dict) key :
  key ∈ d.*1 → ∃ v, getitem d key = Ok v ∧ v ∈ values d.
Proof.
  intros ((k & v) & -> & Hin)%list_elem_of_fmap.
  unfold getitem.
  destruct (list_find (λ kv, kv.1 = (k, v).1) d) as [[i kv]|] eqn:Hf.
  - apply list_find_Some in Hf as (Hi & _ & _). exists kv.2. split; [done|].
    apply list_elem_of_fmap. exists kv. split; [done|].
    by eapply list_elem_of_lookup_2.
  - apply list_find_None in Hf. rewrite Forall_forall in Hf.
    by destruct (Hf _ Hin).
Qed.

Lemma getitem_first (before after : dict) key v :
  key ∉ before.*1 → getitem (before ++ (key, v) :: after) key = Ok v.
Proof.
  intros Hnotin. unfold getitem.
  destruct (list_find _ _) as [[i kv]|] eqn:Hf.
  - apply list_find_Some in Hf as (Hi & Hk & Hfirst).
    destruct (decide (i < length before)%nat) as [Hlt|Hge].
    + rewrite lookup_app_l in Hi by done. destruct Hnotin.
      apply list_elem_of_fmap. exists kv. split; [done|].
      by eapply list_elem_of_lookup_2.
    + destruct (decide (i = length before)) as [->|Hgt].
      * rewrite list_lookup_middle in Hi by done. by injection Hi as <-.
      * destruct (Hfirst (length before) (key, v)); [|lia|done].
        by rewrite list_lookup_middle.
  - apply list_find_None in Hf. rewrite Forall_forall in Hf.
    destruct (Hf (key, v)); [set_solver|done].
Qed.

Lemma search_loop_unobstructed (before after : list (list string * string))
    key v rest :
  unobstructed before.*1 key after.*1 →
  search_loop (insert_all (before ++ (key, v) :: after) (new_node None))
    (key ++ rest) = Some v.
Proof.
  intros (Hne & Hb & Ha).
  rewrite Forall_fmap in Hb, Ha. by apply search_loop_built.
Qed.

Lemma for_each_invariant {A S} (P : S → Prop) (body : S → A → result S) items s :
  P s →
  (∀ s x, P s → ∃ s', body s x = Ok s' ∧ P s') →
  ∃ s', for_each items body s = Ok s' ∧ P s'.
Proof.
  intros Hs Hbody. revert s Hs.
  induction items as [|x items IH]; intros s Hs; [by exists s|].
  destruct (Hbody s x Hs) as (s' & Hx & Hs').
  cbn [for_each]. rewrite Hx. cbn. by apply IH.
Qed.

(** ** Strings *)

Lemma append_empty_r (s : string) : s +:+ EmptyString = s.
Proof.
  induction s as [|c s IH]; [done|].
  change (String c (s +:+ EmptyString) = String c s). by f_equal.
Qed.

Lemma append_assoc (s t u : string) : (s +:+ t) +:+ u = s +:+ (t +:+ u).
Proof.
  induction s as [|c s IH]; [done|].
  change (String c ((s +:+ t) +:+ u) = String c (s +:+ (t +:+ u))). by f_equal.
Qed.

Lemma spaceless_append s t :
  spaceless (s +:+ t) = spaceless s && spaceless t.
Proof.
  induction s as [|c s IH]; [done|].
  change (negb (isspace c) && spaceless (s +:+ t)
          = negb (isspace c) && spaceless s && spaceless t).
  rewrite IH. by destruct (isspace c).
Qed.

Lemma split_from_append current word text :
  spaceless word = true →
  split_from current (word +:+ text) = split_from (current +:+ word) text.
Proof.
  revert current. induction word as [|c word IH]; intros current Hw.
  - by rewrite append_empty_r.
  - cbn [spaceless] in Hw. apply andb_true_iff in Hw as [Hc Hw].
    apply negb_true_iff in Hc.
    change (String c word +:+ text) with (String c (word +:+ text)).
    cbn [split_from]. rewrite Hc, IH by done.
    by rewrite append_assoc.
Qed.

Lemma split_from_words current text :
  spaceless current = true →
  Forall (λ w, w ≠ EmptyString ∧ spaceless w = true) (split_from current text).
Proof.
  revert current. induction text as [|c text IH]; intros current Hc; cbn.
  - case_decide; by repeat constructor.
  - destruct (isspace c) eqn:Hs.
    + case_decide; [by apply IH|]. constructor; [done|by apply IH].
    + apply IH. rewrite spaceless_append, Hc. cbn. by rewrite Hs.
Qed.

Lemma split_join words :
  Forall (λ w, w ≠ EmptyString ∧ spaceless w = true) words →
  split (join " " words) = words.
Proof.
  unfold split, join.
  induction 1 as [|w words [Hne Hw] Hws IH]; [done|].
  destruct words as [|w' words'].
  - change (String.concat " " [w]) with w.
    rewrite <-(append_empty_r w) at 1.
    rewrite split_from_append by done.
    change (EmptyString +:+ w) with w. cbn [split_from].
    by rewrite decide_False.
  - change (String.concat " " (w :: w' :: words'))
      with (w +:+ String " " (String.concat " " (w' :: words'))).
    rewrite split_from_append by done.
    change (EmptyString +:+ w) with w. cbn [split_from].
    change (isspace " ") with true. cbn match.
    rewrite decide_False by done. by rewrite IH.
Qed.

(** [' '.join(text.split())] changes nothing when applied again. *)
Lemma join_split_idempotent text :
  join " " (split (join " " (split text))) = join " " (split text).
Proof. rewrite split_join; [done|]. by apply split_from_words. Qed.

Lemma sub_from_no_occurrence shortform repl text :
  occurs shortform text = false → sub_from shortform repl O text = text.
Proof.
  induction text as [|c text IH]; [done|].
  cbn [occurs sub_from].
  destruct (match_pattern shortform (String c text)); [done|].
  intros Hrest. by rewrite IH.
Qed.

(** ** The scan of [strip_defining_patterns] *)

Lemma getitem_list_Ok {A} (l : list A) j x :
  getitem_list l j = Ok x → - Z.of_nat (length l) ≤ j < Z.of_nat (length l).
Proof.
  unfold getitem_list.
  destruct (j <? 0) eqn:Hj; [apply Z.ltb_lt in Hj|apply Z.ltb_ge in Hj].
  - destruct (j + Z.of_nat (length l) <? 0) eqn:Hk; [done|].
    apply Z.ltb_ge in Hk. lia.
  - destruct (j <? 0) eqn:Hk; [done|].
    destruct (l !! Z.to_nat j) eqn:Hl; [|done].
    apply lookup_lt_Some in Hl. lia.
Qed.

(** The loop ends within the fuel [scan] gives it: every iteration lowers
    [j], and [tokens[j]] raises below [-len(tokens)]. *)
Lemma while_loop_fuel_gen fuel tokens num_words i j :
  (Z.to_nat (j + Z.of_nat (length tokens) + 1) < fuel)%nat →
  is_Some (Adeft.while_loop fuel tokens num_words i j).
Proof.
  revert i j. induction fuel as [|fuel IH]; intros i j Hfuel; [lia|].
  cbn [Adeft.while_loop].
  destruct (i <? num_words); [|done].
  destruct (getitem_list tokens j) as [token|e] eqn:Hget; [|done].
  apply getitem_list_Ok in Hget.
  destruct (100 <? _); [done|].
  apply IH. lia.
Qed.

Lemma while_loop_fuel tokens num_words :
  is_Some (Adeft.while_loop (2 * length tokens + 2) tokens num_words 0
             (Z.of_nat (length tokens) - 1)).
Proof. apply while_loop_fuel_gen. lia. Qed.

(** * The claims *)

Section adeft.
Context `{!NLP}.

(** The pairs [_init_trie] inserts for a grounding map. *)
Let entries (grounding_map : dict) : list (list string * string) :=
  (λ item, (Adeft.edges item.1, item.1)) <$> grounding_map.

Lemma adeft_search_Some shortform grounding_map window exclude tokens l :
  Adeft._search (Adeft.__init__ shortform grounding_map window exclude) tokens
    = Some l →
  l ∈ grounding_map.*1 ∧ Adeft.edges l ≠ [] ∧ Adeft.edges l `prefix_of` tokens.
Proof.
  intros (e & He & <- & Hne & Hp)%search_loop_built_Some.
  apply list_elem_of_fmap in He as ([L g] & -> & Hin). cbn [fst snd] in *.
  split; [|done]. apply list_elem_of_fmap. by exists (L, g).
Qed.

(** C6.  A search with no token returns no match, whatever the trie; the
    root of a built trie is never terminal; and a longform whose edges are
    empty is never returned by a search of a built trie. *)
Theorem empty_key_is_never_matched
    (any : Adeft.AdeftRecognizer) (shortform : string) (grounding_map : dict)
    (window : Z) (exclude : gset string) (L : string) (tokens : list string) :
  let self := Adeft.__init__ shortform grounding_map window exclude in
  Adeft._search any [] = None
  ∧ longform (Adeft._trie self) = None
  ∧ (Adeft.edges L = [] → Adeft._search self tokens ≠ Some L).
Proof.
  split_and!; [done|apply root_not_terminal|].
  intros Hnil (_ & Hne & _)%adeft_search_Some. done.
Qed.

(** C1, amended.  A longform [L] of the grounding map whose edges are not
    empty is found again by a search with its own edges, and its
    post-processing gives [G[L]], when no other longform has non-empty
    edges that are a strict prefix of those of [L] and no longform earlier
    in iteration order has edges that those of [L] are a prefix of.  In the
    deft revision, where the keys are the edges and the payload is the
    grounding, the search returns [G[key]] under the same condition. *)
Theorem round_trip_when_unobstructed
    (shortform : string) (window : Z) (exclude : gset string)
    (before after : dict) (L g : string)
    (exclude' : option (gset string))
    (before' after' : list (list string * string))
    (key : list string) (g' : string) :
  (unobstructed (Adeft.edges <$> before.*1) (Adeft.edges L)
     (Adeft.edges <$> after.*1) →
   let self :=
     Adeft.__init__ shortform (before ++ (L, g) :: after) window exclude in
   Adeft._search self (Adeft.edges L) = Some L
   ∧ Adeft._post_process self L = Ok g)
  ∧ (unobstructed before'.*1 key after'.*1 →
     let self := Deft.__init__ shortform (before' ++ (key, g') :: after') exclude' in
     Deft._search self key = Some g').
Proof.
  split.
  - intros Hu self. split.
    + unfold Adeft._search, self. cbn [Adeft.__init__ Adeft._trie].
      unfold Adeft._init_trie. rewrite fmap_app, fmap_cons. cbn [fst].
      rewrite <-(app_nil_r (Adeft.edges L)) at 2.
      apply search_loop_unobstructed.
      destruct Hu as (Hne & Hb & Ha). split_and!; [done|..].
      * rewrite !Forall_fmap in Hb. rewrite !Forall_fmap. exact Hb.
      * rewrite !Forall_fmap in Ha. rewrite !Forall_fmap. exact Ha.
    + apply getitem_first. intros Hin.
      destruct Hu as (Hne & Hb & _). rewrite Forall_fmap, Forall_forall in Hb.
      destruct (Hb L Hin) as [_ []]. done.
  - intros Hu self. unfold Deft._search, self.
    cbn [Deft.__init__ Deft._trie]. rewrite deft_search_loop.
    rewrite <-(app_nil_r key) at 2.
    by apply search_loop_unobstructed.
Qed.

(** C5, amended.  When two distinct longforms have the same edges, not
    empty, and no pair before the earlier one has edges passing through
    their end, the terminal value at their shared final node after the
    construction is the earlier longform: the later pair does not
    overwrite it. *)
Theorem earlier_pair_keeps_terminal
    (before mid after : dict) (L1 g1 L2 g2 : string) :
  L1 ≠ L2 →
  Adeft.edges L1 = Adeft.edges L2 →
  Adeft.edges L1 ≠ [] →
  Forall (λ item, ¬ Adeft.edges L1 `prefix_of` Adeft.edges item.1) before →
  terminal_value
    (Adeft._init_trie (before ++ (L1, g1) :: mid ++ (L2, g2) :: after))
    (Adeft.edges L2) = Some L1.
Proof.
  intros _ <- Hne Hb. apply terminal_value_built. split; [done|].
  exists (Adeft.edges L1, L1). split; [|done].
  apply creator_Some.
  exists (entries before), (entries (mid ++ (L2, g2) :: after)).
  split_and!; [|done|].
  - unfold entries. by rewrite fmap_app, fmap_cons.
  - unfold entries. by rewrite Forall_fmap.
Qed.
End adeft.

Section adeft_recognize.
Context `{!NLP, !Util}.

(** C10.  [recognize] raises nothing, and every grounding in the set it
    returns is a value of the grounding map. *)
Theorem recognize_in_values
    (shortform : string) (grounding_map : dict) (window : Z)
    (exclude : gset string) (text : string) :
  ∃ groundings : gset string,
    Adeft.recognize (Adeft.__init__ shortform grounding_map window exclude) text
      = Ok groundings
    ∧ groundings ⊆ list_to_set (values grounding_map).
Proof.
  unfold Adeft.recognize.
  apply (for_each_invariant (λ s : gset string, s ⊆ list_to_set (values grounding_map)));
    [set_solver|].
  intros s fragment Hs. unfold Adeft.recognize_body.
  case_decide; [by exists s|].
  destruct (Adeft._search _ _) as [l|] eqn:Hl; [|by exists s].
  case_decide; [by exists s|].
  apply adeft_search_Some in Hl as [Hin _].
  apply getitem_elem_of in Hin as (v & Hv & Hin).
  unfold Adeft._post_process. cbn [Adeft.__init__ Adeft.grounding_map].
  rewrite Hv. cbn. exists ({[v]} ∪ s). split; [done|].
  apply union_least; [|done].
  by apply singleton_subseteq_l, elem_of_list_to_set.
Qed.
End adeft_recognize.

Section adeft_strip.
Context `{!NLP, !Util}.

(** C8, amended.  For a shortform of word characters, stripping the
    result of [strip_defining_patterns] once more returns it unchanged
    whenever that result holds no parenthesised shortform, so that no
    fragment is found in it. *)
Theorem strip_twice_without_new_pattern
    (self : Adeft.AdeftRecognizer) (text once : string) :
  plain (Adeft.shortform self) →
  Adeft.strip_defining_patterns self text = Ok once →
  occurs (Adeft.shortform self) once = false →
  get_candidate_fragments once (Adeft.shortform self) 100 = [] →
  Adeft.strip_defining_patterns self once = Ok once.
Proof.
  intros _ Honce Hoccurs Hfragments.
  unfold Adeft.strip_defining_patterns in *.
  destruct (for_each _ (Adeft.strip_body self) text) as [text'|e]; [|done].
  cbn in Honce. injection Honce as <-.
  rewrite Hfragments. cbn [for_each mbind result_bind].
  unfold re_sub at 1. rewrite sub_from_no_occurrence by done.
  by rewrite join_split_idempotent.
Qed.
End adeft_strip.

Section deft_recognize.
Context `{!NLP, !Deft.Processor}.

(** [recognize] always returns. *)
Lemma deft_recognize_returns self text : ∃ r, Deft.recognize self text r.
Proof.
  unfold Deft.recognize. case_decide as Hempty; [by exists None|].
  apply set_choose_L in Hempty as [r Hr]. by exists r.
Qed.

(** It returns [None] when no candidate is found in the trie. *)
Lemma deft_recognize_nothing_found self text r :
  (∀ g, Some g ∉ Deft.groundings self text) →
  Deft.recognize self text r → r = None.
Proof.
  intros Hnone. unfold Deft.recognize. case_decide; [done|].
  destruct r as [g|]; [|done]. intros Hg. by destruct (Hnone g).
Qed.

(** It logs when two distinct groundings are found. *)
Lemma deft_logs_distinct_groundings self text g1 g2 :
  Some g1 ∈ Deft.groundings self text →
  Some g2 ∈ Deft.groundings self text →
  g1 ≠ g2 →
  Deft.logs self text = true.
Proof.
  intros H1 H2 Hne. unfold Deft.logs. apply bool_decide_eq_true.
  assert ({[Some g1; Some g2]} ⊆ Deft.groundings self text) as Hsub.
  { apply union_least; by apply singleton_subseteq_l. }
  apply subseteq_size in Hsub.
  rewrite size_union, !size_singleton in Hsub by set_solver. lia.
Qed.
End deft_recognize.

(** * Runs on concrete inputs *)

Section runs.
Import Plain.
Local Open Scope string_scope.

Lemma round_trip_when_unobstructed_witness :
  let G := [("c", "G0"); ("b a", "G2"); ("a b", "G3")] in
  let self := Adeft.__init__ "S" G 100 ∅ in
  let G' := [(["c"], "G0"); (["a"; "b"], "G2"); (["a"; "b"; "d"], "G3")] in
  let self' := Deft.__init__ "S" G' None in
  (unobstructed (Adeft.edges <$> [("c", "G0")].*1) (Adeft.edges "b a")
     (Adeft.edges <$> [("a b", "G3")].*1)
   ∧ Adeft._search self (Adeft.edges "b a") = Some "b a"
   ∧ Adeft._post_process self "b a" = Ok "G2")
  ∧ (unobstructed [(["c"], "G0")].*1 ["a"; "b"] [(["a"; "b"; "d"], "G3")].*1
     ∧ Deft._search self' ["a"; "b"] = Some "G2").
Proof.
  intros G self G' self'.
  destruct (round_trip_when_unobstructed "S" 100 ∅
              [("c", "G0")] [("a b", "G3")] "b a" "G2"
              None [(["c"], "G0")] [(["a"; "b"; "d"], "G3")] ["a"; "b"] "G2")
    as [HA HD].
  assert (unobstructed (Adeft.edges <$> [("c", "G0")].*1) (Adeft.edges "b a")
            (Adeft.edges <$> [("a b", "G3")].*1)) as HuA
    by (apply (bool_decide_unpack _); vm_compute; exact I).
  assert (unobstructed [(["c"], "G0")].*1 ["a"; "b"] [(["a"; "b"; "d"], "G3")].*1) as HuD
    by (apply (bool_decide_unpack _); vm_compute; exact I).
  split.
  - split; [exact HuA|]. exact (HA HuA).
  - split; [exact HuD|]. exact (HD HuD).
Defined.

(** C1 as stated fails: with "a" and "b a" both in the map, the search
    with the edges of "b a" stops at the terminal node of "a". *)
Lemma round_trip_counterexample :
  let G := [("a", "G1"); ("b a", "G2")] in
  let self := Adeft.__init__ "S" G 100 ∅ in
  getitem G "b a" = Ok "G2"
  ∧ Adeft._search self (Adeft.edges "b a") = Some "a"
  ∧ Adeft._post_process self "a" = Ok "G1"
  ∧ ¬ (∃ l, Adeft._search self (Adeft.edges "b a") = Some l
            ∧ Adeft._post_process self l = getitem G "b a").
Proof.
  intros G self. split_and!; [by vm_compute..|].
  intros (l & Hs & Hp). vm_compute in Hs. injection Hs as <-.
  vm_compute in Hp. discriminate Hp.
Qed.

(** C2 fails on the code.  With "b a" inserted ahead of "a", the node at
    the end of the edges of "a" exists and is not terminal, although "a"
    is a longform of the map whose edges are exactly that path; in the
    other order it is terminal.  The deft revision does the same with the
    keys ("a", "b") and ("a",). *)
Theorem shorter_longform_inserted_later_is_not_terminal :
  let late := Adeft._init_trie [("b a", "G2"); ("a", "G1")] in
  let early := Adeft._init_trie [("a", "G1"); ("b a", "G2")] in
  let late' := Deft._init_trie [(["a"; "b"], "G2"); (["a"], "G1")] in
  strict_prefix (Adeft.edges "a") (Adeft.edges "b a")
  ∧ slot late (Adeft.edges "a") = Some None
  ∧ terminal_value late (Adeft.edges "b a") = Some "b a"
  ∧ terminal_value early (Adeft.edges "a") = Some "a"
  ∧ terminal_value early (Adeft.edges "b a") = Some "b a"
  ∧ slot late' ["a"] = Some None
  ∧ terminal_value late' ["a"; "b"] = Some "G2".
Proof.
  intros late early late'. split_and!; [|by vm_compute..].
  apply (bool_decide_unpack _). by vm_compute.
Qed.

(** C4 fails on the code.  With "b a" inserted ahead of "a", the text
    "x b a (S) y" is grounded to the grounding of "b a"; in the other
    order it is grounded to the grounding of "a". *)
Theorem longer_longform_wins_when_inserted_first :
  Adeft.recognize (Adeft.__init__ "S" [("b a", "G2"); ("a", "G1")] 100 ∅)
    "x b a (S) y" = Ok {[ "G2" ]}
  ∧ Adeft.recognize (Adeft.__init__ "S" [("a", "G1"); ("b a", "G2")] 100 ∅)
      "x b a (S) y" = Ok {[ "G1" ]}.
Proof. split; by vm_compute. Qed.

(** C5 as stated fails: "a b" and "a  b" have the same edges, and the
    terminal value at their end is the earlier longform. *)
Lemma later_pair_overwrites_counterexample :
  let G := [("a b", "G1"); ("a  b", "G2")] in
  "a b" ≠ "a  b"
  ∧ Adeft.edges "a b" = Adeft.edges "a  b"
  ∧ terminal_value (Adeft._init_trie G) (Adeft.edges "a  b") = Some "a b"
  ∧ terminal_value (Adeft._init_trie G) (Adeft.edges "a  b") ≠ Some "a  b".
Proof. intros G. split_and!; by vm_compute. Qed.

Lemma earlier_pair_keeps_terminal_witness :
  let G := [("c", "G0"); ("a b", "G1"); ("d", "G3"); ("a  b", "G2"); ("e", "G4")] in
  ("a b" ≠ "a  b"
   ∧ Adeft.edges "a b" = Adeft.edges "a  b"
   ∧ Adeft.edges "a b" ≠ []
   ∧ Forall (λ item, ¬ Adeft.edges "a b" `prefix_of` Adeft.edges item.1)
       [("c", "G0")])
  ∧ terminal_value (Adeft._init_trie G) (Adeft.edges "a  b") = Some "a b".
Proof.
  intros G.
  assert ("a b" ≠ "a  b") as H1 by (by vm_compute).
  assert (Adeft.edges "a b" = Adeft.edges "a  b") as H2 by (by vm_compute).
  assert (Adeft.edges "a b" ≠ []) as H3 by (by vm_compute).
  assert (Forall (λ item, ¬ Adeft.edges "a b" `prefix_of` Adeft.edges item.1)
            [("c", "G0")]) as H4
    by (apply (bool_decide_unpack _); vm_compute; exact I).
  split; [done|].
  exact (earlier_pair_keeps_terminal [("c", "G0")] [("d", "G3")] [("e", "G4")]
           "a b" "G1" "a  b" "G2" H1 H2 H3 H4).
Defined.

Lemma empty_key_is_never_matched_witness :
  let self := Adeft.__init__ "S" [("", "G0"); ("a", "G1")] 100 ∅ in
  Adeft.edges "" = []
  ∧ Adeft._search self [] = None
  ∧ longform (Adeft._trie self) = None
  ∧ Adeft._search self ["a"] ≠ Some "".
Proof.
  intros self.
  destruct (empty_key_is_never_matched self "S" [("", "G0"); ("a", "G1")]
              100 ∅ "" ["a"]) as (H1 & H2 & H3).
  split_and!; [reflexivity|exact H1|exact H2|].
  apply H3. reflexivity.
Defined.

(** C7 fails on the code.  The longform is the multiplication sign; the
    fragment before "(S)" holds it and no word, so the scan runs off the
    front of the tokens and [tokens[j]] raises. *)
Theorem scan_raises_without_words :
  let self := Adeft.__init__ "S" [(times_sign, "G1")] 100 ∅ in
  let text := times_sign +:+ " (S)" in
  Adeft._search self (Adeft.fragment_key (tokenize (times_sign +:+ " ")))
    = Some times_sign
  ∧ Adeft.scan (tokenize (times_sign +:+ " ")) 1 = Raise IndexError
  ∧ Adeft.strip_defining_patterns self text = Raise IndexError.
Proof. intros self text. split_and!; by vm_compute. Qed.

(** C8 as stated fails: "((S))" is stripped to "( S )", which is
    stripped to "S". *)
Lemma strip_idempotent_counterexample :
  let self := Adeft.__init__ "S" [] 100 ∅ in
  Adeft.strip_defining_patterns self "((S))" = Ok "( S )"
  ∧ Adeft.strip_defining_patterns self "( S )" = Ok "S"
  ∧ ¬ (∃ once, Adeft.strip_defining_patterns self "((S))" = Ok once
               ∧ Adeft.strip_defining_patterns self once = Ok once).
Proof.
  intros self. split_and!; [by vm_compute..|].
  intros (once & H1 & H2). vm_compute in H1. injection H1 as <-.
  vm_compute in H2. discriminate H2.
Qed.

(** C9 fails on the code.  The text has two candidates, of which only the
    first is in the map: the set holds the grounding and [None],
    [recognize] may return [None], and it logs. *)
Theorem recognize_may_return_None_beside_a_grounding :
  let self := Deft.__init__ "S" [(["a"], "HGNC:1")] None in
  let text := "a (S) b (S)" in
  Deft.groundings self text = {[ Some "HGNC:1"; None ]}
  ∧ Deft.recognize self text None
  ∧ Deft.recognize self text (Some "HGNC:1")
  ∧ Deft.logs self text = true.
Proof.
  intros self text.
  assert (Deft.groundings self text = {[ Some "HGNC:1"; None ]}) as Hg
    by (by vm_compute).
  split_and!; [done| | |].
  - unfold Deft.recognize. rewrite Hg. rewrite decide_False by set_solver.
    set_solver.
  - unfold Deft.recognize. rewrite Hg. rewrite decide_False by set_solver.
    set_solver.
  - unfold Deft.logs. rewrite Hg. by vm_compute.
Qed.

Lemma strip_twice_without_new_pattern_witness :
  let self := Adeft.__init__ "S" [("a", "G1")] 100 ∅ in
  (plain "S"
   ∧ Adeft.strip_defining_patterns self "x a (S) y" = Ok "x S y"
   ∧ occurs "S" "x S y" = false
   ∧ get_candidate_fragments "x S y" "S" 100 = [])
  ∧ Adeft.strip_defining_patterns self "x S y" = Ok "x S y".
Proof.
  intros self.
  assert (plain "S") as H1 by (by repeat constructor).
  assert (Adeft.strip_defining_patterns self "x a (S) y" = Ok "x S y") as H2
    by (by vm_compute).
  assert (occurs "S" "x S y" = false) as H3 by (by vm_compute).
  assert (get_candidate_fragments "x S y" "S" 100 = []) as H4
    by (by vm_compute).
  split; [done|].
  exact (strip_twice_without_new_pattern self "x a (S) y" "x S y" H1 H2 H3 H4).
Defined.
End runs.

(** * Further properties of the trie *)

Lemma antichain_elem_of entries :
  antichain entries ↔
  ∀ e e', e ∈ entries → e' ∈ entries → e.1 `prefix_of` e'.1 → e = e'.
Proof.
  unfold antichain. rewrite Forall_forall.
  split.
  - intros H e e' He He'. specialize (H e He). rewrite Forall_forall in H. auto.
  - intros H e He. apply Forall_forall. auto.
Qed.

Lemma antichain_permutation entries entries' :
  entries ≡ₚ entries' → antichain entries → antichain entries'.
Proof.
  intros Hp. rewrite !antichain_elem_of. intros H e e' He He'.
  apply H; by rewrite Hp.
Qed.

Lemma insert_all_app entries entries' root :
  insert_all (entries ++ entries') root
  = insert_all entries' (insert_all entries root).
Proof. apply foldl_app. Qed.

(** In a trie built from an antichain, a search finds exactly the entries
    whose edges, not empty, begin the tokens. *)
Lemma search_loop_antichain entries tokens v :
  antichain entries →
  search_loop (insert_all entries (new_node None)) tokens = Some v ↔
  ∃ key, (key, v) ∈ entries ∧ key ≠ [] ∧ key `prefix_of` tokens.
Proof.
  intros Ha. split.
  - intros ([key v'] & He & <- & Hne & Hp)%search_loop_built_Some. eauto.
  - intros (key & Hin & Hne & [rest ->]).
    apply list_elem_of_split_l in Hin as (before & after & -> & Hnotin).
    rewrite antichain_elem_of in Ha.
    assert ((key, v) ∈ before ++ (key, v) :: after) as Hself.
    { apply elem_of_app. right. apply elem_of_cons. by left. }
    apply search_loop_built; [done| |].
    + apply Forall_forall. intros e He.
      assert (e ∈ before ++ (key, v) :: after) as He'.
      { apply elem_of_app. by left. }
      split.
      * intros (_ & Hp & Hneq). apply Hneq.
        by rewrite (Ha e (key, v) He' Hself Hp).
      * intros Hp. apply Hnotin.
        by rewrite (Ha (key, v) e Hself He' Hp).
    + apply Forall_forall. intros e He (_ & Hp & Hneq). apply Hneq.
      assert (e ∈ before ++ (key, v) :: after) as He'.
      { apply elem_of_app. right. apply elem_of_cons. by right. }
      by rewrite (Ha e (key, v) He' Hself Hp).
Qed.

Lemma creator_is_Some path entries :
  is_Some (creator path entries) ↔ ∃ e, e ∈ entries ∧ path `prefix_of` e.1.
Proof.
  split.
  - intros [e He]. exists e. split; [by eapply creator_elem_of|].
    by apply creator_Some in He as (_ & _ & _ & ? & _).
  - intros (e & He & Hp). unfold creator. apply head_is_Some.
    intros Hnil.
    assert (e ∈ filter (λ e, path `prefix_of` e.1) entries) as Hin
      by by apply list_elem_of_filter.
    rewrite Hnil in Hin. by apply elem_of_nil in Hin.
Qed.

(** The shape of a built trie: below the root there is a node at [path]
    exactly when the edges of some entry pass through it. *)
Lemma node_at_built entries path :
  is_Some (node_at (insert_all entries (new_node None)) path) ↔
  path = [] ∨ ∃ e, e ∈ entries ∧ path `prefix_of` e.1.
Proof.
  rewrite <-creator_is_Some, <-(fmap_is_Some longform).
  change (longform <$> node_at ?t ?p) with (slot t p).
  rewrite slot_insert_all. destruct path as [|t path].
  - cbn. split; [by left|by eexists].
  - rewrite slot_new_node by done. rewrite fmap_is_Some.
    split; [by right|by intros [|]].
Qed.

(** Entries inserted later leave the payload of every existing node as it
    is. *)
Lemma slot_insert_all_app entries entries' path x :
  slot (insert_all entries (new_node None)) path = Some x →
  slot (insert_all (entries ++ entries') (new_node None)) path = Some x.
Proof.
  intros Hx. by rewrite insert_all_app, slot_insert_all, Hx.
Qed.

Lemma search_loop_app root tokens more v :
  search_loop root tokens = Some v → search_loop root (tokens ++ more) = Some v.
Proof.
  revert root. induction tokens as [|token rest IH]; intros root; [done|].
  cbn [app search_loop]. destruct (search_body root token); auto.
Qed.

Section more_adeft.
Context `{!NLP}.

Lemma adeft_entries_elem_of (grounding_map : dict) key L :
  (key, L) ∈ adeft_entries grounding_map ↔
  L ∈ grounding_map.*1 ∧ key = Adeft.edges L.
Proof.
  unfold adeft_entries. rewrite !list_elem_of_fmap. split.
  - intros ([L' g] & [= -> ->] & Hin). split; [|done]. by exists (L', g).
  - intros (([L' g] & -> & Hin) & ->). by exists (L', g).
Qed.

(** X1.  The terminal nodes of the trie of [AdeftRecognizer._init_trie]:
    the node at a path is terminal with the longform [L] exactly when the
    path is not empty, it is the edges of [L], and [L] is the first longform
    of the map, in iteration order, whose edges pass through the path. *)
Theorem init_trie_terminal_iff
    (grounding_map : dict) (path : list string) (L : string) :
  terminal_value (Adeft._init_trie grounding_map) path = Some L ↔
  path ≠ [] ∧ Adeft.edges L = path
  ∧ ∃ before g after,
      grounding_map = before ++ (L, g) :: after
      ∧ Forall (λ item, ¬ path `prefix_of` Adeft.edges item.1) before.
Proof.
  unfold Adeft._init_trie. rewrite terminal_value_built. split.
  - intros (Hne & e & Hc & He & Hv). split; [done|].
    apply creator_Some in Hc as (before' & after' & Heq & _ & Hb).
    apply fmap_app_inv in Heq as (before & rest & -> & Heq & ->).
    symmetry in Heq.
    apply fmap_cons_inv in Heq as ([L' g] & after & -> & -> & ->).
    cbn [fst snd] in *. subst L'. split; [done|].
    exists before, g, after. split; [done|]. by rewrite Forall_fmap in Hb.
  - intros (Hne & He & before & g & after & -> & Hb). split; [done|].
    exists (Adeft.edges L, L). split; [|done].
    apply creator_Some.
    exists (adeft_entries before), (adeft_entries after).
    split_and!.
    + unfold adeft_entries. by rewrite fmap_app, fmap_cons.
    + by rewrite He.
    + unfold adeft_entries. by rewrite Forall_fmap.
Qed.

(** X2.  The shape of the trie of [AdeftRecognizer._init_trie] does not
    depend on the order of the map: there is a node at a path exactly when
    the path is empty (the root) or begins the edges of some longform. *)
Theorem init_trie_node_iff (grounding_map : dict) (path : list string) :
  is_Some (node_at (Adeft._init_trie grounding_map) path) ↔
  path = [] ∨ ∃ L, L ∈ grounding_map.*1 ∧ path `prefix_of` Adeft.edges L.
Proof.
  unfold Adeft._init_trie. rewrite node_at_built.
  apply or_iff_compat_l. split.
  - intros ([key L] & He & Hp). apply adeft_entries_elem_of in He as [Hin ->].
    by exists L.
  - intros (L & Hin & Hp). exists (Adeft.edges L, L).
    split; [by apply adeft_entries_elem_of|done].
Qed.

(** X3.  Longforms added at the end of the map change no node that the
    longforms before them give: every node keeps its payload, terminal or
    not. *)
Theorem init_trie_append_keeps_payload
    (grounding_map more : dict) (path : list string) (x : option string) :
  slot (Adeft._init_trie grounding_map) path = Some x →
  slot (Adeft._init_trie (grounding_map ++ more)) path = Some x.
Proof.
  unfold Adeft._init_trie. rewrite fmap_app. apply slot_insert_all_app.
Qed.

(** X4.  On any trie, [_search] returns [v] exactly when some non-empty
    prefix of the tokens leads to a terminal node with the payload [v] and
    no shorter non-empty prefix leads to a terminal node. *)
Theorem search_first_terminal_iff
    (self : Adeft.AdeftRecognizer) (tokens : list string) (v : string) :
  Adeft._search self tokens = Some v ↔
  ∃ path, path ≠ [] ∧ path `prefix_of` tokens
    ∧ terminal_value (Adeft._trie self) path = Some v
    ∧ ∀ q, q ≠ [] → q `prefix_of` path → q ≠ path →
        terminal_value (Adeft._trie self) q = None.
Proof.
  split; [apply search_loop_Some|].
  intros (path & Hne & [rest ->] & Hv & Hq).
  by apply search_loop_first_terminal.
Qed.

(** X5.  Tokens after a match do not matter: a search that finds a
    longform finds the same longform when more tokens follow. *)
Theorem search_ignores_later_tokens
    (self : Adeft.AdeftRecognizer) (tokens more : list string) (v : string) :
  Adeft._search self tokens = Some v →
  Adeft._search self (tokens ++ more) = Some v.
Proof. apply search_loop_app. Qed.

(** X6.  When no longform of the map has edges that are a prefix of those
    of another, a search of the built trie returns [L] exactly when [L] is
    a longform of the map whose edges are not empty and begin the tokens. *)
Theorem search_antichain_iff
    (shortform : string) (grounding_map : dict) (window : Z)
    (exclude : gset string) (tokens : list string) (L : string) :
  antichain (adeft_entries grounding_map) →
  Adeft._search (Adeft.__init__ shortform grounding_map window exclude) tokens
    = Some L ↔
  L ∈ grounding_map.*1 ∧ Adeft.edges L ≠ []
  ∧ Adeft.edges L `prefix_of` tokens.
Proof.
  intros Ha. unfold Adeft._search. cbn [Adeft.__init__ Adeft._trie].
  unfold Adeft._init_trie. fold (adeft_entries grounding_map).
  rewrite search_loop_antichain by done. split.
  - intros (key & Hin & Hne & Hp).
    apply adeft_entries_elem_of in Hin as [Hin ->]. done.
  - intros (Hin & Hne & Hp). exists (Adeft.edges L).
    split; [by apply adeft_entries_elem_of|done].
Qed.

(** X7.  When no longform of the map has edges that are a prefix of those
    of another, the order of the map does not matter: a map with the same
    pairs in another order gives the same search results. *)
Theorem search_order_independent
    (shortform : string) (grounding_map grounding_map' : dict) (window : Z)
    (exclude : gset string) (tokens : list string) :
  antichain (adeft_entries grounding_map) →
  grounding_map ≡ₚ grounding_map' →
  Adeft._search (Adeft.__init__ shortform grounding_map window exclude) tokens
  = Adeft._search (Adeft.__init__ shortform grounding_map' window exclude) tokens.
Proof.
  intros Ha Hp. apply option_eq. intros L.
  assert (antichain (adeft_entries grounding_map')) as Ha'.
  { eapply antichain_permutation; [|done]. unfold adeft_entries. by rewrite Hp. }
  rewrite !search_antichain_iff by done. by rewrite Hp.
Qed.
End more_adeft.

(** X8.  The terminal nodes of the trie of deft's [Recognizer._init_trie]:
    the node at a path is terminal with the grounding [g] exactly when the
    path is not empty and the first key of the map, in iteration order,
    that passes through the path is the path itself, mapped to [g]. *)
Theorem deft_init_trie_terminal_iff
    (grounding_map : list (list string * string)) (path : list string)
    (g : string) :
  terminal_value (Deft._init_trie grounding_map) path = Some g ↔
  path ≠ []
  ∧ ∃ before after,
      grounding_map = before ++ (path, g) :: after
      ∧ Forall (λ item, ¬ path `prefix_of` item.1) before.
Proof.
  unfold Deft._init_trie. rewrite terminal_value_built. split.
  - intros (Hne & [key g'] & Hc & He & Hv). cbn [fst snd] in *. subst.
    split; [done|].
    apply creator_Some in Hc as (before & after & -> & _ & Hb). eauto.
  - intros (Hne & before & after & -> & Hb). split; [done|].
    exists (path, g). split; [|done].
    apply creator_Some. by exists before, after.
Qed.

(** X9.  In the deft revision, when no key of the map is a prefix of
    another, a search of the built trie returns [g] exactly when some key
    of the map, not empty, begins the tokens and is mapped to [g]. *)
Theorem deft_search_antichain_iff
    (shortform : string) (grounding_map : list (list string * string))
    (exclude : option (gset string)) (tokens : list string) (g : string) :
  antichain grounding_map →
  Deft._search (Deft.__init__ shortform grounding_map exclude) tokens = Some g ↔
  ∃ key, (key, g) ∈ grounding_map ∧ key ≠ [] ∧ key `prefix_of` tokens.
Proof.
  intros Ha. unfold Deft._search. cbn [Deft.__init__ Deft._trie].
  rewrite deft_search_loop. by apply search_loop_antichain.
Qed.

Section more_deft_recognize.
Context `{!NLP, !Deft.Processor}.

(** The result of [_search] for one candidate of [recognize]. *)
Let found (self : Deft.Recognizer) (candidate : list string) : option string :=
  Deft._search self (stem <$> reverse candidate).

Lemma deft_groundings_elem_of self text r :
  r ∈ Deft.groundings self text ↔
  ∃ candidate,
    candidate ∈ Deft.extract (Deft.shortform self) (Deft.exclude self) text
    ∧ r = found self candidate.
Proof.
  unfold Deft.groundings. rewrite elem_of_list_to_set, list_elem_of_fmap.
  split; intros (c & ? & ?); by exists c.
Qed.

Lemma deft_groundings_empty self text :
  Deft.groundings self text = ∅ ↔
  Deft.extract (Deft.shortform self) (Deft.exclude self) text = [].
Proof.
  split.
  - intros Hempty.
    destruct (Deft.extract _ _ text) as [|c cs] eqn:Hc; [done|].
    assert (found self c ∈ Deft.groundings self text) as Hin.
    { apply deft_groundings_elem_of. exists c. rewrite Hc.
      split; [apply elem_of_cons; by left|done]. }
    rewrite Hempty in Hin. by apply elem_of_empty in Hin.
  - intros Hnil. unfold Deft.groundings. by rewrite Hnil.
Qed.

(** X10.  What deft's [recognize] can return: [None] for a text without
    candidate, and otherwise the result of [_search] for any one of the
    candidates, which is [None] for a candidate that is not found. *)
Theorem deft_recognize_iff
    (self : Deft.Recognizer) (text : string) (r : option string) :
  Deft.recognize self text r ↔
  (Deft.extract (Deft.shortform self) (Deft.exclude self) text = [] ∧ r = None)
  ∨ ∃ candidate,
      candidate ∈ Deft.extract (Deft.shortform self) (Deft.exclude self) text
      ∧ r = Deft._search self (stem <$> reverse candidate).
Proof.
  unfold Deft.recognize. case_decide as Hempty.
  - apply deft_groundings_empty in Hempty. split; [by left|].
    intros [[_ ?]|(c & Hc & _)]; [done|].
    rewrite Hempty in Hc. by apply elem_of_nil in Hc.
  - rewrite deft_groundings_elem_of. split; [by right|].
    intros [[Hnil _]|?]; [|done].
    by apply deft_groundings_empty in Hnil.
Qed.

(** X11.  Deft's [recognize] logs exactly when two candidates of the text
    give different results of [_search]; a candidate that is not found
    counts as one result. *)
Theorem deft_logs_iff (self : Deft.Recognizer) (text : string) :
  Deft.logs self text = true ↔
  ∃ c1 c2,
    c1 ∈ Deft.extract (Deft.shortform self) (Deft.exclude self) text
    ∧ c2 ∈ Deft.extract (Deft.shortform self) (Deft.exclude self) text
    ∧ Deft._search self (stem <$> reverse c1)
      ≠ Deft._search self (stem <$> reverse c2).
Proof.
  unfold Deft.logs. rewrite bool_decide_eq_true. split.
  - intros Hsize.
    destruct (set_choose_L (Deft.groundings self text)) as [x Hx].
    { intros Hempty. rewrite Hempty, size_empty in Hsize. lia. }
    destruct (set_choose_L (Deft.groundings self text ∖ {[x]})) as [y Hy].
    { intros Hempty. apply (f_equal size) in Hempty.
      rewrite size_difference, size_singleton, size_empty in Hempty
        by by apply singleton_subseteq_l.
      lia. }
    apply elem_of_difference in Hy as [Hy Hxy].
    rewrite not_elem_of_singleton in Hxy.
    apply deft_groundings_elem_of in Hx as (c1 & Hc1 & ->).
    apply deft_groundings_elem_of in Hy as (c2 & Hc2 & ->).
    exists c1, c2. split_and!; [done..|]. by intros Heq.
  - intros (c1 & c2 & Hc1 & Hc2 & Hne).
    assert ({[found self c1; found self c2]} ⊆ Deft.groundings self text)
      as Hsub.
    { apply union_least; apply singleton_subseteq_l;
        apply deft_groundings_elem_of; eauto. }
    apply subseteq_size in Hsub.
    rewrite size_union, !size_singleton in Hsub; [lia|].
    by apply disjoint_singleton_l, not_elem_of_singleton.
Qed.

(** X12.  A grounding that deft's [recognize] returns is a value of the
    grounding map, reached from a key that is not empty and ends one of
    the candidates, stemmed. *)
Theorem deft_recognize_grounding
    (shortform : string) (grounding_map : list (list string * string))
    (exclude : option (gset string)) (text : string) (g : string) :
  Deft.recognize (Deft.__init__ shortform grounding_map exclude) text (Some g) →
  ∃ key candidate,
    (key, g) ∈ grounding_map ∧ key ≠ []
    ∧ candidate ∈ Deft.extract shortform exclude text
    ∧ key `prefix_of` (stem <$> reverse candidate).
Proof.
  intros [[_ ?]|(c & Hc & Hs)]%deft_recognize_iff; [done|].
  symmetry in Hs. unfold Deft._search in Hs. rewrite deft_search_loop in Hs.
  apply search_loop_built_Some in Hs as ([key g'] & Hin & <- & Hne & Hp).
  by exists key, c.
Qed.
End more_deft_recognize.

Section more_adeft_recognize.
Context `{!NLP, !Util}.

(** X13.  Whatever the order of the map, a longform that [_search] returns
    on the built trie is a key of the grounding map whose edges are not
    empty and begin the tokens searched. *)
Theorem search_sound
    (shortform : string) (grounding_map : dict) (window : Z)
    (exclude : gset string) (tokens : list string) (L : string) :
  Adeft._search (Adeft.__init__ shortform grounding_map window exclude) tokens
    = Some L →
  L ∈ grounding_map.*1 ∧ Adeft.edges L ≠ []
  ∧ Adeft.edges L `prefix_of` tokens.
Proof. apply adeft_search_Some. Qed.

(** The fragment grounds the shortform to [g]: it is not empty, its
    candidate, stemmed and reversed, is found in the trie, and the longform
    found, not empty, is mapped to [g]. *)
Let grounds (self : Adeft.AdeftRecognizer) (fragment g : string) : Prop :=
  fragment ≠ EmptyString
  ∧ ∃ L,
      Adeft._search self
        (stem <$> reverse (get_candidate fragment (Adeft.exclude self))) = Some L
      ∧ L ≠ EmptyString
      ∧ Adeft._post_process self L = Ok g.

Lemma recognize_body_grounds shortform grounding_map window exclude s fragment :
  let self := Adeft.__init__ shortform grounding_map window exclude in
  ∃ s', Adeft.recognize_body self s fragment = Ok s'
        ∧ ∀ g, g ∈ s' ↔ g ∈ s ∨ grounds self fragment g.
Proof.
  intros self. unfold Adeft.recognize_body, grounds.
  case_decide as Hf.
  { exists s. split; [done|]. intros g. split; [by left|]. by intros [|[]]. }
  destruct (Adeft._search self _) as [L|] eqn:Hs.
  - case_decide as HL.
    { exists s. split; [done|]. intros g. split; [by left|].
      intros [|(_ & L' & [= <-] & ? & _)]; done. }
    pose proof Hs as [Hin _]%adeft_search_Some.
    apply getitem_elem_of in Hin as (v & Hv & _).
    unfold Adeft._post_process at 1. cbn [self Adeft.__init__ Adeft.grounding_map].
    rewrite Hv. cbn [mbind result_bind]. exists ({[v]} ∪ s). split; [done|].
    intros g. rewrite elem_of_union, elem_of_singleton. split.
    + intros [->|?]; [right|by left]. split; [done|]. by exists L.
    + intros [?|(_ & L' & [= <-] & _ & Hg)]; [by right|left].
      unfold Adeft._post_process in Hg.
      cbn [self Adeft.__init__ Adeft.grounding_map] in Hg. congruence.
  - exists s. split; [done|]. intros g. split; [by left|].
    by intros [|(_ & L' & ? & _)].
Qed.

Lemma for_each_recognize_body shortform grounding_map window exclude fragments s :
  let self := Adeft.__init__ shortform grounding_map window exclude in
  ∃ s', for_each fragments (Adeft.recognize_body self) s = Ok s'
        ∧ ∀ g, g ∈ s' ↔
            g ∈ s ∨ ∃ fragment, fragment ∈ fragments ∧ grounds self fragment g.
Proof.
  cbn zeta. revert s.
  induction fragments as [|fragment fragments IH]; intros s.
  - exists s. split; [done|]. intros g. split; [by left|].
    intros [?|(f & Hf & _)]; [done|]. by apply elem_of_nil in Hf.
  - pose proof (recognize_body_grounds shortform grounding_map window exclude
                  s fragment) as Hstep.
    cbn zeta in Hstep. destruct Hstep as (s1 & Hbody & Hs1).
    destruct (IH s1) as (s' & Hrest & Hs').
    exists s'. cbn [for_each]. rewrite Hbody.
    split; [exact Hrest|].
    intros g. rewrite Hs', Hs1. split.
    + intros [[?|?]|(f & Hf & ?)]; [by left|right..].
      * exists fragment. split; [apply elem_of_cons; by left|done].
      * exists f. split; [apply elem_of_cons; by right|done].
    + intros [?|(f & [->|Hf]%elem_of_cons & ?)];
        [by left; left|by left; right|right; by exists f].
Qed.

(** X14.  [recognize] raises nothing and returns exactly the groundings of
    the fragments of the text: [g] is in the set exactly when some fragment,
    not empty, has a candidate whose stemmed, reversed tokens are found in
    the trie, and the longform found is not empty and is mapped to [g]. *)
Theorem recognize_iff
    (shortform : string) (grounding_map : dict) (window : Z)
    (exclude : gset string) (text : string) :
  let self := Adeft.__init__ shortform grounding_map window exclude in
  ∃ groundings : gset string,
    Adeft.recognize self text = Ok groundings
    ∧ ∀ g, g ∈ groundings ↔
        ∃ fragment L,
          fragment ∈ get_candidate_fragments text shortform window
          ∧ fragment ≠ EmptyString
          ∧ Adeft._search self
              (stem <$> reverse (get_candidate fragment exclude)) = Some L
          ∧ L ≠ EmptyString
          ∧ getitem grounding_map L = Ok g.
Proof.
  cbn zeta. unfold Adeft.recognize.
  pose proof (for_each_recognize_body shortform grounding_map window exclude
                (get_candidate_fragments text shortform window) ∅) as Hall.
  cbn zeta in Hall. destruct Hall as (s' & Hrun & Hs').
  exists s'. split; [exact Hrun|]. intros g. rewrite Hs'. split.
  - intros [Hg|(f & Hf & Hne & L & Hs & HL & Hg)];
      [by apply elem_of_empty in Hg|]. by exists f, L.
  - intros (f & L & Hf & Hne & Hs & HL & Hg). right. exists f.
    split; [done|]. split; [done|]. by exists L.
Qed.
End more_adeft_recognize.

(** * Further properties of [strip_defining_patterns] *)

Lemma getitem_list_Raise {A} (l : list A) j e :
  getitem_list l j = Raise e → e = IndexError.
Proof.
  unfold getitem_list. destruct (_ <? 0); [congruence|].
  destruct (l !! _); congruence.
Qed.

Lemma getitem_list_app_r {A} (front back : list A) (k : nat) x :
  back !! k = Some x →
  getitem_list (front ++ back) (Z.of_nat (length front + k)) = Ok x.
Proof.
  intros Hk. unfold getitem_list.
  assert ((Z.of_nat (length front + k) <? 0) = false) as H0
    by (apply Z.ltb_ge; lia).
  rewrite !H0, Nat2Z.id, lookup_app_r by lia.
  replace (length front + k - length front)%nat with k by lia.
  by rewrite Hk.
Qed.

Section more_adeft_strip.
Context `{!NLP, !Util}.

Lemma while_loop_bounds fuel tokens num_words i j r :
  - Z.of_nat (length tokens) - 1 ≤ j →
  Adeft.while_loop fuel tokens num_words i j = Some r →
  r = Raise IndexError
  ∨ ∃ j', r = Ok j' ∧ - Z.of_nat (length tokens) - 1 ≤ j' ≤ j.
Proof.
  revert i j. induction fuel as [|fuel IH]; intros i j Hj; [done|].
  cbn [Adeft.while_loop].
  destruct (i <? num_words); [|intros [= <-]; right; exists j; split; [done|lia]].
  destruct (getitem_list tokens j) as [token|e] eqn:Hget.
  - apply getitem_list_Ok in Hget.
    destruct (100 <? _).
    + intros [= <-]. right. exists (j - 1). split; [done|lia].
    + intros Hr. apply IH in Hr as [?|(j' & ? & ?)]; [by left| |lia].
      right. exists j'. split; [done|lia].
  - apply getitem_list_Raise in Hget as ->. intros [= <-]. by left.
Qed.

(** X15.  The backward scan raises nothing but [IndexError], and the [j]
    it ends on lies between [-len(tokens) - 1] and [len(tokens) - 1]. *)
Theorem scan_result (tokens : list (string * string)) (num_words : Z) :
  Adeft.scan tokens num_words = Raise IndexError
  ∨ ∃ j, Adeft.scan tokens num_words = Ok j
         ∧ - Z.of_nat (length tokens) - 1 ≤ j ≤ Z.of_nat (length tokens) - 1.
Proof.
  unfold Adeft.scan.
  destruct (Adeft.while_loop _ tokens num_words 0 _) as [r|] eqn:Hr;
    [|by left].
  apply while_loop_bounds in Hr as [->|(j & -> & ?)]; [by left| |lia].
  right. by exists j.
Qed.

Lemma while_loop_words fuel front back num_words i :
  Forall (λ token, re_match_word token.1 = true) back →
  Z.of_nat (length back) = Z.min num_words 101 →
  0 ≤ i ≤ Z.min num_words 100 →
  (Z.to_nat (Z.of_nat (length back) - i) < fuel)%nat →
  Adeft.while_loop fuel (front ++ back) num_words i
    (Z.of_nat (length (front ++ back)) - 1 - i)
  = Some (Ok (Z.of_nat (length front) - 1)).
Proof.
  intros Hwords Hlen. revert i.
  induction fuel as [|fuel IH]; intros i Hi Hfuel; [lia|].
  cbn [Adeft.while_loop]. rewrite length_app.
  destruct (i <? num_words) eqn:Hlt;
    [apply Z.ltb_lt in Hlt|apply Z.ltb_ge in Hlt].
  - set (k := (length back - 1 - Z.to_nat i)%nat).
    destruct (lookup_lt_is_Some_2 back k) as [token Htoken]; [lia|].
    replace (Z.of_nat (length front + length back) - 1 - i)
      with (Z.of_nat (length front + k)) by lia.
    rewrite (getitem_list_app_r _ _ _ _ Htoken).
    rewrite Forall_forall in Hwords.
    rewrite (Hwords token) by by eapply list_elem_of_lookup_2.
    destruct (100 <? i + 1) eqn:Hcap;
      [apply Z.ltb_lt in Hcap|apply Z.ltb_ge in Hcap].
    + do 2 f_equal. lia.
    + replace (Z.of_nat (length front + k) - 1)
        with (Z.of_nat (length (front ++ back)) - 1 - (i + 1))
        by (rewrite length_app; lia).
      apply IH; lia.
  - do 2 f_equal. lia.
Qed.

(** X16.  When the tokens end with as many word tokens as the longform has
    words, or with 101 of them if it has more, the scan ends just ahead of
    those: it cuts off the words of the longform, and at most 101. *)
Theorem scan_words
    (front back : list (string * string)) (num_words : Z) :
  Forall (λ token, re_match_word token.1 = true) back →
  Z.of_nat (length back) = Z.min num_words 101 →
  Adeft.scan (front ++ back) num_words = Ok (Z.of_nat (length front) - 1).
Proof.
  intros Hwords Hlen. unfold Adeft.scan.
  replace (Z.of_nat (length (front ++ back)) - 1)
    with (Z.of_nat (length (front ++ back)) - 1 - 0) by lia.
  rewrite (while_loop_words _ front back num_words 0 Hwords Hlen);
    [done|lia|rewrite length_app; lia].
Qed.

(** X17.  One fragment of [strip_defining_patterns]: when the longform
    found has [n] words and the fragment ends with [min(n, 101)] word
    tokens, the fragment, stripped, is replaced in the text by the tokens
    ahead of those, put back into text. *)
Theorem strip_body_cuts_words
    (self : Adeft.AdeftRecognizer) (text fragment L : string)
    (front back : list (string * string)) :
  tokenize fragment = front ++ back →
  Adeft._search self (Adeft.fragment_key (tokenize fragment)) = Some L →
  Forall (λ token, re_match_word token.1 = true) back →
  Z.of_nat (length back) = Z.min (Z.of_nat (length (split L))) 101 →
  Adeft.strip_body self text fragment
  = Ok (replace text (strip fragment) (untokenize front)).
Proof.
  intros Htokens Hsearch Hwords Hlen. unfold Adeft.strip_body.
  rewrite Hsearch, Htokens, (scan_words front back _ Hwords Hlen).
  cbn [mbind result_bind]. do 3 f_equal.
  unfold slice_to.
  replace (Z.of_nat (length front) - 1 + 1) with (Z.of_nat (length front))
    by lia.
  assert ((Z.of_nat (length front) <? 0) = false) as ->
    by (apply Z.ltb_ge; lia).
  by rewrite Nat2Z.id, take_app_length.
Qed.



(** X19.  The result of [strip_defining_patterns] is normalised: it is a
    sequence of words, free of white space, with one space between two of
    them, so that splitting it and joining it again gives it back. *)
Theorem strip_result_normalised
    (self : Adeft.AdeftRecognizer) (text once : string) :
  Adeft.strip_defining_patterns self text = Ok once →
  once = join " " (split once)
  ∧ Forall (λ w, w ≠ EmptyString ∧ spaceless w = true) (split once).
Proof.
  unfold Adeft.strip_defining_patterns.
  destruct (for_each _ (Adeft.strip_body self) text) as [text'|e]; [|done].
  cbn [mbind result_bind]. intros [= <-].
  split; [by rewrite join_split_idempotent|apply split_from_words; done].
Qed.
End more_adeft_strip.

Lemma getitem_list_elem_of {A} (l : list A) j x :
  getitem_list l j = Ok x → x ∈ l.
Proof.
  unfold getitem_list. destruct (_ <? 0); [done|].
  destruct (l !! _) eqn:Hl; [|done]. intros [= <-].
  by eapply list_elem_of_lookup_2.
Qed.

Section more_adeft_scan.
Context `{!NLP}.

Lemma while_loop_without_word fuel tokens num_words j :
  Forall (λ token, re_match_word token.1 = false) tokens →
  1 ≤ num_words →
  (Z.to_nat (j + Z.of_nat (length tokens) + 1) < fuel)%nat →
  Adeft.while_loop fuel tokens num_words 0 j = Some (Raise IndexError).
Proof.
  intros Hnone Hn. revert j.
  induction fuel as [|fuel IH]; intros j Hfuel; [lia|].
  cbn [Adeft.while_loop].
  assert ((0 <? num_words) = true) as -> by (apply Z.ltb_lt; lia).
  destruct (getitem_list tokens j) as [token|e] eqn:Hget.
  - rewrite Forall_forall in Hnone.
    rewrite (Hnone token) by by eapply getitem_list_elem_of.
    apply getitem_list_Ok in Hget.
    change (100 <? 0) with false. cbv iota. apply IH. lia.
  - by apply getitem_list_Raise in Hget as ->.
Qed.

(** X20.  When the tokens hold no word token and the longform has at least
    one word, the scan counts nothing, reads the tokens twice (the second
    time through negative indices) and raises [IndexError]. *)
Theorem scan_without_word (tokens : list (string * string)) (num_words : Z) :
  Forall (λ token, re_match_word token.1 = false) tokens →
  1 ≤ num_words →
  Adeft.scan tokens num_words = Raise IndexError.
Proof.
  intros Hnone Hn. unfold Adeft.scan.
  rewrite while_loop_without_word; [done..|lia].
Qed.

(** X21.  A longform is never found when some longform whose edges pass
    through the end of its own (the same edges, or longer ones) comes
    ahead of its first occurrence in the map. *)
Theorem longform_after_longer_is_never_found
    (shortform : string) (before rest : dict) (window : Z)
    (exclude : gset string) (item : string * string) (L : string)
    (tokens : list string) :
  L ∉ before.*1 →
  item ∈ before →
  Adeft.edges L `prefix_of` Adeft.edges item.1 →
  Adeft._search (Adeft.__init__ shortform (before ++ rest) window exclude) tokens
  ≠ Some L.
Proof.
  intros Hfirst Hitem Hp Hs.
  apply search_loop_Some in Hs as (path & Hne & _ & Hv & _).
  cbn [Adeft.__init__ Adeft._trie] in Hv. unfold Adeft._init_trie in Hv.
  apply terminal_value_built in Hv as (_ & e & Hc & He & HL).
  apply creator_Some in Hc as (before' & after' & Heq & _ & Hb).
  fold (adeft_entries (before ++ rest)) in Heq.
  apply list_elem_of_lookup_1 in Hitem as [i Hi].
  assert (adeft_entries (before ++ rest) !! i
          = Some (Adeft.edges item.1, item.1)) as Hi'.
  { unfold adeft_entries. rewrite list_lookup_fmap, lookup_app_l
      by by eapply lookup_lt_Some. by rewrite Hi. }
  rewrite Heq in Hi'.
  destruct (decide (i < length before')%nat) as [Hlt|Hge].
  - rewrite lookup_app_l in Hi' by done.
    apply list_elem_of_lookup_2 in Hi'.
    rewrite Forall_forall in Hb. apply (Hb _ Hi'). cbn [fst].
    assert (e = (Adeft.edges L, L)) as ->.
    { assert (e ∈ adeft_entries (before ++ rest)) as Hin.
      { rewrite Heq. apply elem_of_app. right. apply elem_of_cons. by left. }
      destruct e as [key L']. apply adeft_entries_elem_of in Hin as [_ ->].
      cbn [snd] in HL. by subst. }
    cbn [fst] in He. by rewrite <-He.
  - apply Hfirst.
    assert (adeft_entries (before ++ rest) !! length before' = Some e) as Hat
      by (rewrite Heq; by apply list_lookup_middle).
    unfold adeft_entries in Hat.
    rewrite list_lookup_fmap, lookup_app_l in Hat.
    + destruct (before !! length before') as [[L' g]|] eqn:Hl; [|done].
      cbn in Hat. injection Hat as <-. cbn [snd] in HL. subst L'.
      apply list_elem_of_fmap. exists (L, g). split; [done|].
      by eapply list_elem_of_lookup_2.
    + apply lookup_lt_Some in Hi. lia.
Qed.
End more_adeft_scan.

Lemma deft_recognize_elem_of `{!NLP, !Deft.Processor} self text r :
  r ∈ Deft.groundings self text → Deft.recognize self text r.
Proof.
  intros Hr. unfold Deft.recognize. rewrite decide_False; [done|].
  intros Hempty. rewrite Hempty in Hr. by apply elem_of_empty in Hr.
Qed.

(** * Further runs on concrete inputs *)

Section more_runs.
Import Plain.
Local Open Scope string_scope.

Lemma init_trie_append_keeps_payload_witness :
  slot (Adeft._init_trie [("b a", "G2")]) ["a"] = Some None
  ∧ slot (Adeft._init_trie ([("b a", "G2")] ++ [("a", "G1")])%list) ["a"]
    = Some None.
Proof.
  assert (slot (Adeft._init_trie [("b a", "G2")]) ["a"] = Some None) as H1
    by (by vm_compute).
  split; [exact H1|].
  exact (init_trie_append_keeps_payload [("b a", "G2")] [("a", "G1")] ["a"]
           None H1).
Defined.

Lemma search_ignores_later_tokens_witness :
  let self := Adeft.__init__ "S" [("b a", "G2")] 100 ∅ in
  Adeft._search self ["a"; "b"] = Some "b a"
  ∧ Adeft._search self (["a"; "b"] ++ ["x"; "y"])%list = Some "b a".
Proof.
  intros self.
  assert (Adeft._search self ["a"; "b"] = Some "b a") as H1 by (by vm_compute).
  split; [exact H1|].
  exact (search_ignores_later_tokens self ["a"; "b"] ["x"; "y"] "b a" H1).
Defined.

Lemma search_antichain_iff_witness :
  let G := [("b a", "G2"); ("c", "G1")] in
  antichain (adeft_entries G)
  ∧ (Adeft._search (Adeft.__init__ "S" G 100 ∅) ["a"; "b"; "x"] = Some "b a" ↔
     "b a" ∈ G.*1 ∧ Adeft.edges "b a" ≠ []
     ∧ Adeft.edges "b a" `prefix_of` ["a"; "b"; "x"]).
Proof.
  intros G.
  assert (antichain (adeft_entries G)) as Ha
    by (apply (bool_decide_unpack _); vm_compute; exact I).
  split; [exact Ha|].
  exact (search_antichain_iff "S" G 100 ∅ ["a"; "b"; "x"] "b a" Ha).
Defined.

Lemma search_order_independent_witness :
  let G := [("b a", "G2"); ("c", "G1")] in
  let G' := [("c", "G1"); ("b a", "G2")] in
  (antichain (adeft_entries G) ∧ G ≡ₚ G')
  ∧ Adeft._search (Adeft.__init__ "S" G 100 ∅) ["a"; "b"; "x"]
    = Adeft._search (Adeft.__init__ "S" G' 100 ∅) ["a"; "b"; "x"].
Proof.
  intros G G'.
  assert (antichain (adeft_entries G)) as Ha
    by (apply (bool_decide_unpack _); vm_compute; exact I).
  assert (G ≡ₚ G') as Hp by apply perm_swap.
  split; [done|].
  exact (search_order_independent "S" G G' 100 ∅ ["a"; "b"; "x"] Ha Hp).
Defined.

Lemma deft_search_antichain_iff_witness :
  let G := [(["a"; "b"], "HGNC:2"); (["c"], "HGNC:1")] in
  antichain G
  ∧ (Deft._search (Deft.__init__ "S" G None) ["a"; "b"; "x"] = Some "HGNC:2" ↔
     ∃ key, (key, "HGNC:2") ∈ G ∧ key ≠ [] ∧ key `prefix_of` ["a"; "b"; "x"]).
Proof.
  intros G.
  assert (antichain G) as Ha
    by (apply (bool_decide_unpack _); vm_compute; exact I).
  split; [exact Ha|].
  exact (deft_search_antichain_iff "S" G None ["a"; "b"; "x"] "HGNC:2" Ha).
Defined.

Lemma deft_recognize_grounding_witness :
  let G := [(["a"], "HGNC:1")] in
  Deft.recognize (Deft.__init__ "S" G None) "x a (S) y" (Some "HGNC:1")
  ∧ ∃ key candidate,
      (key, "HGNC:1") ∈ G ∧ key ≠ []
      ∧ candidate ∈ Deft.extract "S" None "x a (S) y"
      ∧ key `prefix_of` (stem <$> reverse candidate).
Proof.
  intros G.
  assert (Deft.recognize (Deft.__init__ "S" G None) "x a (S) y"
            (Some "HGNC:1")) as H1.
  { apply deft_recognize_elem_of.
    assert (Deft.groundings (Deft.__init__ "S" G None) "x a (S) y"
            = {[ Some "HGNC:1" ]}) as -> by (by vm_compute).
    by apply elem_of_singleton. }
  split; [exact H1|].
  exact (deft_recognize_grounding "S" G None "x a (S) y" "HGNC:1" H1).
Defined.

Lemma search_sound_witness :
  let G := [("a", "G1"); ("b a", "G2")] in
  Adeft._search (Adeft.__init__ "S" G 100 ∅) ["a"; "b"] = Some "a"
  ∧ "a" ∈ G.*1 ∧ Adeft.edges "a" ≠ []
  ∧ Adeft.edges "a" `prefix_of` ["a"; "b"].
Proof.
  intros G.
  assert (Adeft._search (Adeft.__init__ "S" G 100 ∅) ["a"; "b"] = Some "a")
    as H1 by (by vm_compute).
  split; [exact H1|].
  exact (search_sound "S" G 100 ∅ ["a"; "b"] "a" H1).
Defined.

Lemma scan_words_witness :
  let front := [("x", " ")] in
  let back := [("b", " "); ("a", " ")] in
  (Forall (λ token, re_match_word token.1 = true) back
   ∧ Z.of_nat (length back) = Z.min 2 101)
  ∧ Adeft.scan (front ++ back)%list 2 = Ok (Z.of_nat (length front) - 1).
Proof.
  intros front back.
  assert (Forall (λ token, re_match_word token.1 = true) back) as H1
    by (by repeat constructor).
  assert (Z.of_nat (length back) = Z.min 2 101) as H2 by reflexivity.
  split; [done|].
  exact (scan_words front back 2 H1 H2).
Defined.

Lemma strip_body_cuts_words_witness :
  let self := Adeft.__init__ "S" [("b a", "G2")] 100 ∅ in
  let front := [("x", " ")] in
  let back := [("b", " "); ("a", " ")] in
  (tokenize "x b a " = (front ++ back)%list
   ∧ Adeft._search self (Adeft.fragment_key (tokenize "x b a ")) = Some "b a"
   ∧ Forall (λ token, re_match_word token.1 = true) back
   ∧ Z.of_nat (length back) = Z.min (Z.of_nat (length (split "b a"))) 101)
  ∧ Adeft.strip_body self "x b a (S) y" "x b a "
    = Ok (replace "x b a (S) y" (strip "x b a ") (untokenize front)).
Proof.
  intros self front back.
  assert (tokenize "x b a " = (front ++ back)%list) as H1 by (by vm_compute).
  assert (Adeft._search self (Adeft.fragment_key (tokenize "x b a "))
          = Some "b a") as H2 by (by vm_compute).
  assert (Forall (λ token, re_match_word token.1 = true) back) as H3
    by (by repeat constructor).
  assert (Z.of_nat (length back)
          = Z.min (Z.of_nat (length (split "b a"))) 101) as H4
    by (by vm_compute).
  split; [done|].
  exact (strip_body_cuts_words self "x b a (S) y" "x b a " "b a" front back
           H1 H2 H3 H4).
Defined.


Lemma strip_result_normalised_witness :
  let self := Adeft.__init__ "S" [("a", "G1")] 100 ∅ in
  Adeft.strip_defining_patterns self "  x   a (S)  y " = Ok "x S y"
  ∧ "x S y" = join " " (split "x S y")
  ∧ Forall (λ w, w ≠ EmptyString ∧ spaceless w = true) (split "x S y").
Proof.
  intros self.
  assert (Adeft.strip_defining_patterns self "  x   a (S)  y " = Ok "x S y")
    as H1 by (by vm_compute).
  split; [exact H1|].
  exact (strip_result_normalised self "  x   a (S)  y " "x S y" H1).
Defined.

Lemma scan_without_word_witness :
  let tokens := [(times_sign, " "); (times_sign, " ")] in
  (Forall (λ token, re_match_word token.1 = false) tokens ∧ (1 ≤ 2)%Z)
  ∧ Adeft.scan tokens 2 = Raise IndexError.
Proof.
  intros tokens.
  assert (Forall (λ token, re_match_word token.1 = false) tokens) as H1
    by (by repeat constructor).
  assert (1 ≤ 2)%Z as H2 by lia.
  split; [done|].
  exact (scan_without_word tokens 2 H1 H2).
Defined.

Lemma longform_after_longer_is_never_found_witness :
  let before := [("c b a", "G3"); ("d", "G4")] in
  let rest := [("b a", "G2"); ("a", "G1")] in
  (("b a" ∉ before.*1)
   ∧ ("c b a", "G3") ∈ before
   ∧ Adeft.edges "b a" `prefix_of` Adeft.edges ("c b a", "G3").1)
  ∧ Adeft._search (Adeft.__init__ "S" (before ++ rest)%list 100 ∅)
      ["a"; "b"; "c"]
    ≠ Some "b a".
Proof.
  intros before rest.
  assert ("b a" ∉ before.*1) as H1
    by (apply (bool_decide_unpack _); vm_compute; exact I).
  assert (("c b a", "G3") ∈ before) as H2
    by (apply elem_of_cons; by left).
  assert (Adeft.edges "b a" `prefix_of` Adeft.edges ("c b a", "G3").1) as H3
    by (apply (bool_decide_unpack _); vm_compute; exact I).
  split; [done|].
  exact (longform_after_longer_is_never_found "S" before rest 100 ∅
           ("c b a", "G3") "b a" ["a"; "b"; "c"] H1 H2 H3).
Defined.
End more_runs.
